(** * Verification of the owcat input-method core against its specification

    A shallow embedding of the four core components of the engine
    ([src/core/pinyin_converter.cpp], [dictionary_manager.cpp],
    [prediction_engine.cpp], [engine.cpp]) together with the properties the
    specification states about them.

    Conventions of the embedding.
    - [std::string] is [string]: a sequence of bytes.  Chinese text is its
      UTF-8 encoding, so ["你好"] has length 6, as [std::string::length]
      reports it.
    - C++ [int] values are [Z]; the places where the source converts between
      signed and unsigned or truncates to 32 bits are written out.
    - [double] scores are rationals ([Q]) and the arithmetic on them is
      exact: the rounding of binary floating point is not modelled.  The
      properties below are about the shape of the score formula and the
      order of the candidates, not about the last bit of a score.
    - Every method becomes a function from the object's state to the new
      state and the returned value. *)

From Stdlib Require Import ZArith QArith Qminmax String Ascii List Permutation Sorted Lia.
From stdpp Require Import base option list gmap strings sorting.

#[local] Open Scope string_scope.
#[local] Open Scope list_scope.
#[local] Open Scope Z_scope.

(** ** Helpers for [std::string] *)

Module Str.

(** [s.substr(pos, len)] for [pos <= s.length()]. *)
Definition substr (s : string) (pos len : nat) : string := String.substring pos len s.

(** [s.find(needle)]: position of the first occurrence, [None] for [npos]. *)
Fixpoint find (s needle : string) : option nat :=
  if String.prefix needle s then Some 0%nat
  else match s with
       | EmptyString => None
       | String _ s' => option_map S (find s' needle)
       end.

(** [s.pop_back()] on a non-empty string. *)
Fixpoint pop_back (s : string) : string :=
  match s with
  | EmptyString => EmptyString
  | String _ EmptyString => EmptyString
  | String c s' => String c (pop_back s')
  end.

(** [s.empty()]. *)
Definition empty (s : string) : bool :=
  match s with EmptyString => true | _ => false end.

(** [s + ch]. *)
Definition push_back (s : string) (ch : ascii) : string := s +:+ String ch EmptyString.

(** Concatenation of a sequence of strings. *)
Definition concat_all (l : list string) : string := foldr String.app EmptyString l.

(** The specification's "[p] is a prefix of [s]". *)
Definition is_prefix_of (p s : string) : Prop := exists rest, s = p +:+ rest.

End Str.

(** ** PinyinConverter (the specification's PinyinSegmenter) *)

Module PinyinConverter.

(** The static table [STANDARD_PINYINS]. *)
Definition STANDARD_PINYINS : list string := [
  "a"; "ai"; "an"; "ang"; "ao";
  "ba"; "bai"; "ban"; "bang"; "bao"; "bei"; "ben"; "beng"; "bi"; "bian"; "biao"; "bie"; "bin"; "bing"; "bo"; "bu";
  "ca"; "cai"; "can"; "cang"; "cao"; "ce"; "cen"; "ceng"; "cha"; "chai"; "chan"; "chang"; "chao"; "che"; "chen"; "cheng"; "chi"; "chong"; "chou"; "chu"; "chuai"; "chuan"; "chuang"; "chui"; "chun"; "chuo"; "ci"; "cong"; "cou"; "cu"; "cuan"; "cui"; "cun"; "cuo";
  "da"; "dai"; "dan"; "dang"; "dao"; "de"; "deng"; "di"; "dian"; "diao"; "die"; "ding"; "diu"; "dong"; "dou"; "du"; "duan"; "dui"; "dun"; "duo";
  "e"; "en"; "er";
  "fa"; "fan"; "fang"; "fei"; "fen"; "feng"; "fo"; "fou"; "fu";
  "ga"; "gai"; "gan"; "gang"; "gao"; "ge"; "gei"; "gen"; "geng"; "gong"; "gou"; "gu"; "gua"; "guai"; "guan"; "guang"; "gui"; "gun"; "guo";
  "ha"; "hai"; "han"; "hang"; "hao"; "he"; "hei"; "hen"; "heng"; "hong"; "hou"; "hu"; "hua"; "huai"; "huan"; "huang"; "hui"; "hun"; "huo";
  "ji"; "jia"; "jian"; "jiang"; "jiao"; "jie"; "jin"; "jing"; "jiong"; "jiu"; "ju"; "juan"; "jue"; "jun";
  "ka"; "kai"; "kan"; "kang"; "kao"; "ke"; "ken"; "keng"; "kong"; "kou"; "ku"; "kua"; "kuai"; "kuan"; "kuang"; "kui"; "kun"; "kuo";
  "la"; "lai"; "lan"; "lang"; "lao"; "le"; "lei"; "leng"; "li"; "lia"; "lian"; "liang"; "liao"; "lie"; "lin"; "ling"; "liu"; "long"; "lou"; "lu"; "luan"; "lue"; "lun"; "luo"; "lv";
  "ma"; "mai"; "man"; "mang"; "mao"; "me"; "mei"; "men"; "meng"; "mi"; "mian"; "miao"; "mie"; "min"; "ming"; "miu"; "mo"; "mou"; "mu";
  "na"; "nai"; "nan"; "nang"; "nao"; "ne"; "nei"; "nen"; "neng"; "ni"; "nian"; "niang"; "niao"; "nie"; "nin"; "ning"; "niu"; "nong"; "nu"; "nuan"; "nue"; "nuo"; "nv";
  "o"; "ou";
  "pa"; "pai"; "pan"; "pang"; "pao"; "pei"; "pen"; "peng"; "pi"; "pian"; "piao"; "pie"; "pin"; "ping"; "po"; "pou"; "pu";
  "qi"; "qia"; "qian"; "qiang"; "qiao"; "qie"; "qin"; "qing"; "qiong"; "qiu"; "qu"; "quan"; "que"; "qun";
  "ran"; "rang"; "rao"; "re"; "ren"; "reng"; "ri"; "rong"; "rou"; "ru"; "ruan"; "rui"; "run"; "ruo";
  "sa"; "sai"; "san"; "sang"; "sao"; "se"; "sen"; "seng"; "sha"; "shai"; "shan"; "shang"; "shao"; "she"; "shen"; "sheng"; "shi"; "shou"; "shu"; "shua"; "shuai"; "shuan"; "shuang"; "shui"; "shun"; "shuo"; "si"; "song"; "sou"; "su"; "suan"; "sui"; "sun"; "suo";
  "ta"; "tai"; "tan"; "tang"; "tao"; "te"; "teng"; "ti"; "tian"; "tiao"; "tie"; "ting"; "tong"; "tou"; "tu"; "tuan"; "tui"; "tun"; "tuo";
  "wa"; "wai"; "wan"; "wang"; "wei"; "wen"; "weng"; "wo"; "wu";
  "xi"; "xia"; "xian"; "xiang"; "xiao"; "xie"; "xin"; "xing"; "xiong"; "xiu"; "xu"; "xuan"; "xue"; "xun";
  "ya"; "yan"; "yang"; "yao"; "ye"; "yi"; "yin"; "ying"; "yo"; "yong"; "you"; "yu"; "yuan"; "yue"; "yun";
  "za"; "zai"; "zan"; "zang"; "zao"; "ze"; "zei"; "zen"; "zeng"; "zha"; "zhai"; "zhan"; "zhang"; "zhao"; "zhe"; "zhen"; "zheng"; "zhi"; "zhong"; "zhou"; "zhu"; "zhua"; "zhuai"; "zhuan"; "zhuang"; "zhui"; "zhun"; "zhuo"; "zi"; "zong"; "zou"; "zu"; "zuan"; "zui"; "zun"; "zuo"
].

Record t := mk {
  current_pinyin_ : string;
  valid_pinyins_ : list string;
  pinyin_map_ : gmap string bool;
  valid_chars_ : gmap ascii bool
}.

Definition set_current_pinyin_ (s : string) (pc : t) : t :=
  mk s (valid_pinyins_ pc) (pinyin_map_ pc) (valid_chars_ pc).

(** The letters ['a'] to ['z'] the constructor loops over. *)
Definition lowercase_letters : list ascii :=
  map ascii_of_nat (seq 97 26).

(** Constructor: [valid_chars_[c] = true] for every [c] from ['a'] to ['z']. *)
Definition new : t :=
  mk EmptyString [] ∅
     (fold_left (fun m c => <[c := true]> m) lowercase_letters ∅).

Definition loadPinyinData (pc : t) : t * bool :=
  let valid := STANDARD_PINYINS in
  let pmap := fold_left (fun m pinyin => <[pinyin := true]> m) valid ∅ in
  (mk (current_pinyin_ pc) valid pmap (valid_chars_ pc), true).

Definition initialize (pc : t) : t * bool :=
  let '(pc', ok) := loadPinyinData pc in
  if negb ok then (pc', false) else (pc', true).

(** The test of the loop body of [addChar] and of [getPinyinPrefixes]. *)
Definition starts_with (pinyin test_pinyin : string) : bool :=
  (String.length test_pinyin <=? String.length pinyin)%nat
  && String.eqb (Str.substr pinyin 0 (String.length test_pinyin)) test_pinyin.

Definition addChar (ch : ascii) (pc : t) : t * bool :=
  match valid_chars_ pc !! ch with
  | None => (pc, false)
  | Some _ =>
      let test_pinyin := Str.push_back (current_pinyin_ pc) ch in
      let has_valid_prefix :=
        existsb (fun pinyin => starts_with pinyin test_pinyin) (valid_pinyins_ pc) in
      if has_valid_prefix
      then (set_current_pinyin_ (Str.push_back (current_pinyin_ pc) ch) pc, true)
      else (pc, false)
  end.

Definition removeLastChar (pc : t) : t * bool :=
  if Str.empty (current_pinyin_ pc) then (pc, false)
  else (set_current_pinyin_ (Str.pop_back (current_pinyin_ pc)) pc, true).

Definition clear (pc : t) : t := set_current_pinyin_ EmptyString pc.

Definition getCurrentPinyin (pc : t) : string := current_pinyin_ pc.

Definition isValidPinyin (pc : t) (pinyin : string) : bool :=
  match pinyin_map_ pc !! pinyin with Some _ => true | None => false end.

(** [segmentPinyinRecursive]: [current] and [results] are the two reference
    parameters; [current] is pushed before the recursive call and popped
    after it, so the caller's value is passed on unchanged.  The recursion
    goes on [start], which grows by at least one at every call; [fuel]
    bounds its depth. *)
Fixpoint segmentPinyinRecursive (fuel : nat) (pc : t) (pinyin : string) (start : nat)
    (current : list string) (results : list (list string)) : list (list string) :=
  match fuel with
  | O => results
  | S fuel' =>
      if (String.length pinyin <=? start)%nat then
        (if bool_decide (current = []) then results else results ++ [current])
      else
        fold_left
          (fun results len =>
             let segment := Str.substr pinyin start len in
             if isValidPinyin pc segment
             then segmentPinyinRecursive fuel' pc pinyin (start + len)
                    (current ++ [segment]) results
             else results)
          (seq 1 (String.length pinyin - start))
          results
  end.

Definition getPinyinSegments (pc : t) : list (list string) :=
  if Str.empty (current_pinyin_ pc) then []
  else segmentPinyinRecursive (S (String.length (current_pinyin_ pc))) pc
         (current_pinyin_ pc) 0 [] [].

Definition getPinyinPrefixes (pc : t) (pinyin : string) : list string :=
  filter (fun valid_pinyin => starts_with valid_pinyin pinyin = true) (valid_pinyins_ pc).

(** The operations of the class that touch the buffer, and their sequences. *)
Inductive op :=
| OpInitialize
| OpAddChar (ch : ascii)
| OpRemoveLastChar
| OpClear.

Definition run_op (o : op) (pc : t) : t :=
  match o with
  | OpInitialize => (initialize pc).1
  | OpAddChar ch => (addChar ch pc).1
  | OpRemoveLastChar => (removeLastChar pc).1
  | OpClear => clear pc
  end.

Definition run_ops (ops : list op) (pc : t) : t :=
  fold_left (fun pc o => run_op o pc) ops pc.

End PinyinConverter.

(** ** types.h *)

Record Candidate := mkCandidate {
  text : string;
  pinyin : string;
  score : Q;
  frequency : Z;
  is_prediction : bool
}.

Inductive InputState := IDLE | COMPOSING | SELECTING.

Inductive InputEventType :=
  KEY_PRESS | KEY_RELEASE | CANDIDATE_SELECT | COMMIT_TEXT | CLEAR_COMPOSITION.

Record InputEvent := mkInputEvent {
  type : InputEventType;
  data : string;
  key_code : Z
}.

Record EngineConfig := mkEngineConfig {
  dictionary_path : string;
  model_path : string;
  max_candidates : Z;
  enable_prediction : bool;
  enable_learning : bool;
  prediction_threshold : Q
}.

(** The defaults of [struct EngineConfig]. *)
Definition default_config : EngineConfig :=
  mkEngineConfig "data/dictionary.db" "models/qwen0.6b.gguf" 9 true true (1 # 2).

(** ** The C++ library and SQLite, as far as the sources rely on them *)

Module Std.

Definition INT_MIN : Z := - 2 ^ 31.
Definition INT_MAX : Z := 2 ^ 31 - 1.

(** Conversion of an integer to a 32-bit [int] (what [sqlite3_column_int]
    does to a 64-bit column value). *)
Definition to_int (z : Z) : Z := (z + 2 ^ 31) mod 2 ^ 32 - 2 ^ 31.

(** [static_cast<size_t>] of an [int], on a 64-bit target. *)
Definition to_size_t (z : Z) : Z := z mod 2 ^ 64.

(** [static_cast<char>] of an [int], read as a byte. *)
Definition to_char (z : Z) : ascii := ascii_of_N (Z.to_N (z mod 256)).

Definition code (c : ascii) : Z := Z.of_N (N_of_ascii c).

Definition in_range (lo hi c : ascii) : bool :=
  (code lo <=? code c) && (code c <=? code hi).

(** [std::tolower] in the "C" locale. *)
Definition tolower (c : ascii) : ascii :=
  if in_range "A" "Z" c then ascii_of_N (N_of_ascii c + 32) else c.

(** [std::isspace] and [std::ispunct] in the "C" locale. *)
Definition isspace (c : ascii) : bool :=
  (code c =? 32) || ((9 <=? code c) && (code c <=? 13)).

Definition ispunct (c : ascii) : bool :=
  ((33 <=? code c) && (code c <=? 47)) || ((58 <=? code c) && (code c <=? 64))
  || ((91 <=? code c) && (code c <=? 96)) || ((123 <=? code c) && (code c <=? 126)).

(** [std::isalpha] in the "C" locale. *)
Definition isalpha (c : ascii) : bool := in_range "a" "z" c || in_range "A" "Z" c.

(** [s.c_str()] read back as a NUL-terminated string: the bytes before the
    first zero byte. *)
Fixpoint c_str (s : string) : string :=
  match s with
  | EmptyString => EmptyString
  | String c s' => if (code c =? 0) then EmptyString else String c (c_str s')
  end.

(** [std::stoi(s)]: leading white space, an optional sign, decimal digits;
    [None] when it throws (no digit, or a value outside [int]). *)
Fixpoint skip_spaces (s : list ascii) : list ascii :=
  match s with
  | c :: s' => if isspace c then skip_spaces s' else s
  | [] => []
  end.

Fixpoint read_digits (s : list ascii) (acc : option Z) : option Z :=
  match s with
  | c :: s' =>
      if in_range "0" "9" c
      then read_digits s' (Some (10 * default 0 acc + (code c - 48)))
      else acc
  | [] => acc
  end.

Definition stoi (s : string) : option Z :=
  let s := skip_spaces (list_ascii_of_string s) in
  let '(negative, s) :=
    match s with
    | c :: s' => if Ascii.eqb c "-" then (true, s')
                 else if Ascii.eqb c "+" then (false, s') else (false, s)
    | [] => (false, s)
    end in
  match read_digits s None with
  | None => None
  | Some n =>
      let v := if negative then - n else n in
      if (INT_MIN <=? v) && (v <=? INT_MAX) then Some v else None
  end.

(** [a.score > b.score]. *)
Definition Qgtb (a b : Q) : bool := negb (Qle_bool a b).

End Std.

(** [std::sort(first, last, [](a, b) { return a.score > b.score; })].  The
    standard promises a permutation of the input in which no element's score
    exceeds that of an element before it, and nothing about the relative order of
    elements with equal scores. *)
Class StdSort := {
  sort_by_score : list Candidate -> list Candidate;
  sort_by_score_perm : forall l, sort_by_score l ≡ₚ l;
  sort_by_score_sorted :
    forall l, StronglySorted (fun a b => (score b <= score a)%Q) (sort_by_score l)
}.

Module Sqlite.

(** A row of table [words].  The key columns [(word, pinyin)] carry the
    UNIQUE constraint and index the table; the timestamps play no part in
    any query result and are left out. *)
Record row := mkRow {
  frequency : Z;
  is_user_word : bool
}.

Abbreviation words := (gmap (string * string) row).

(** One character of UTF-8 text: a lead byte and its continuation bytes. *)
Definition is_continuation (c : ascii) : bool :=
  Z.land (Std.code c) 192 =? 128.

Fixpoint skip_continuation (s : list ascii) : list ascii :=
  match s with
  | c :: s' => if is_continuation c then skip_continuation s' else s
  | [] => []
  end.

Definition skip_char (s : list ascii) : option (list ascii) :=
  match s with
  | [] => None
  | c :: s' => Some (if 192 <=? Std.code c then skip_continuation s' else s')
  end.

(** SQL [length(X)] of a text value: its number of characters. *)
Definition length (s : string) : Z :=
  Z.of_nat (List.length (filter (fun c => is_continuation c = false) (list_ascii_of_string s))).

(** [X LIKE pattern]: [%] stands for any sequence of characters, [_] for
    one character, and ASCII letters match in either case. *)
Fixpoint like_bytes (pattern str : list ascii) : bool :=
  match pattern with
  | [] => match str with [] => true | _ => false end
  | p :: pattern' =>
      if Ascii.eqb p "%" then
        (fix any (str : list ascii) : bool :=
           like_bytes pattern' str
           || match str with [] => false | _ :: str' => any str' end) str
      else if Ascii.eqb p "_" then
        match skip_char str with
        | Some str' => like_bytes pattern' str'
        | None => false
        end
      else
        match str with
        | [] => false
        | c :: str' => Ascii.eqb (Std.tolower p) (Std.tolower c) && like_bytes pattern' str'
        end
  end.

Definition like (x pattern : string) : bool :=
  like_bytes (list_ascii_of_string pattern) (list_ascii_of_string x).

(** [ORDER BY frequency DESC, length(word) ASC]. *)
Definition order_by (r1 r2 : (string * string) * row) : Prop :=
  frequency r1.2 > frequency r2.2
  \/ (frequency r1.2 = frequency r2.2 /\ length r1.1.1 <= length r2.1.1).

#[global] Instance order_by_dec (r1 r2 : (string * string) * row) : Decision (order_by r1 r2).
Proof. unfold order_by. apply _. Defined.

(** [LIMIT n]: a negative bound means no bound. *)
Definition limit {A : Type} (n : Z) (l : list A) : list A :=
  if n <? 0 then l else take (Z.to_nat n) l.

(** [SELECT word, pinyin, frequency FROM words WHERE ... ORDER BY
    frequency DESC, length(word) ASC LIMIT ?].  Rows the ORDER BY clause
    does not tell apart come in an order SQLite does not promise; here it is
    the order the merge sort leaves them in. *)
Definition select (tbl : words) (where_ : string -> string -> bool) (max : Z)
  : list ((string * string) * row) :=
  limit max
    (merge_sort order_by
       (filter (fun r => where_ r.1.1 r.1.2 = true) (map_to_list tbl))).

End Sqlite.

(** ** DictionaryManager (the specification's CandidateStore) *)

Module DictionaryManager.

(** [db_] is [None] while no database is open; every statement then fails to
    prepare. *)
Record t := mk {
  db_path_ : string;
  db_ : option Sqlite.words
}.

Definition new (db_path : string) : t := mk db_path None.

(** The words [loadSystemDictionary] seeds, each with frequency 100. *)
Definition basic_words : list (string * string) := [
  ("你好", "ni hao");
  ("世界", "shi jie");
  ("中国", "zhong guo");
  ("输入法", "shu ru fa");
  ("计算机", "ji suan ji");
  ("程序", "cheng xu");
  ("软件", "ruan jian");
  ("开发", "kai fa");
  ("技术", "ji shu");
  ("人工智能", "ren gong zhi neng")
].

(** [INSERT OR IGNORE INTO words (word, pinyin, frequency, is_user_word)
    VALUES (?, ?, ?, 0)]. *)
Definition insert_or_ignore (word pinyin : string) (frequency : Z) (tbl : Sqlite.words)
  : Sqlite.words :=
  let key := (Std.c_str word, Std.c_str pinyin) in
  match tbl !! key with
  | Some _ => tbl
  | None => <[key := Sqlite.mkRow frequency false]> tbl
  end.

Definition loadSystemDictionary (dm : t) : t * bool :=
  match db_ dm with
  | None => (dm, false)
  | Some tbl =>
      (mk (db_path_ dm)
          (Some (fold_left (fun tbl wp => insert_or_ignore wp.1 wp.2 100 tbl) basic_words tbl)),
       true)
  end.

(** [initialize]: [disk] is what [sqlite3_open] and [createTables] find,
    the table stored at [db_path_], or [None] when either of them fails. *)
Definition initialize (disk : option Sqlite.words) (dm : t) : t * bool :=
  match disk with
  | None => (dm, false)
  | Some tbl => ((loadSystemDictionary (mk (db_path_ dm) (Some tbl))).1, true)
  end.

Definition shutdown (dm : t) : t := mk (db_path_ dm) None.

Definition calculateScore (word word_pinyin : string) (frequency : Z) (input_pinyin : string)
  : Q :=
  let score := 0%Q in
  let score := (score + Qmin 50 (inject_Z frequency / 10))%Q in
  let score := (score + Qmax 0 (20 - inject_Z (Z.of_nat (String.length word))))%Q in
  if String.eqb word_pinyin input_pinyin then (score + 30)%Q
  else match Str.find word_pinyin input_pinyin with
       | Some O => (score + 20)%Q
       | Some _ => (score + 10)%Q
       | None => score
       end.

(** The loop over the result rows, shared by the two searches. *)
Definition to_candidates (rows : list ((string * string) * Sqlite.row)) (input_pinyin : string)
  : list Candidate :=
  map (fun r =>
         let word := r.1.1 in
         let word_pinyin := r.1.2 in
         let frequency := Std.to_int (Sqlite.frequency r.2) in
         let score := calculateScore word word_pinyin frequency input_pinyin in
         mkCandidate word word_pinyin score frequency false)
      rows.

Definition searchByPinyin (dm : t) (pinyin : string) (max_results : Z) : list Candidate :=
  match db_ dm with
  | None => []
  | Some tbl =>
      let exact_match := pinyin in
      let prefix_match := pinyin +:+ "%" in
      to_candidates
        (Sqlite.select tbl
           (fun _ p => Sqlite.like p (Std.c_str exact_match)
                       || Sqlite.like p (Std.c_str prefix_match))
           max_results)
        pinyin
  end.

(** The loop that joins a pinyin sequence with single spaces: [i] is the
    index of the first element of [pinyins]. *)
Fixpoint join_loop (i : nat) (pinyins : list string) (acc : string) : string :=
  match pinyins with
  | [] => acc
  | p :: rest => join_loop (S i) rest ((if (0 <? i)%nat then acc +:+ " " else acc) +:+ p)
  end.

Definition join_pinyins (pinyins : list string) : string := join_loop 0 pinyins EmptyString.

Definition searchByPinyinSequence (dm : t) (pinyins : list string) (max_results : Z)
  : list Candidate :=
  match pinyins with
  | [] => []
  | _ => searchByPinyin dm (join_pinyins pinyins) max_results
  end.

Definition fuzzySearch (dm : t) (partial_pinyin : string) (max_results : Z) : list Candidate :=
  match db_ dm with
  | None => []
  | Some tbl =>
      let pattern := "%" +:+ partial_pinyin +:+ "%" in
      to_candidates
        (Sqlite.select tbl (fun _ p => Sqlite.like p (Std.c_str pattern)) max_results)
        partial_pinyin
  end.

(** [INSERT OR REPLACE INTO words (word, pinyin, frequency, is_user_word)
    VALUES (?, ?, ?, 1)]. *)
Definition addUserWord (dm : t) (word pinyin : string) (frequency : Z) : t * bool :=
  match db_ dm with
  | None => (dm, false)
  | Some tbl =>
      (mk (db_path_ dm)
          (Some (<[(Std.c_str word, Std.c_str pinyin) := Sqlite.mkRow frequency true]> tbl)),
       true)
  end.

(** [UPDATE words SET frequency = frequency + 1, ... WHERE word = ? AND
    pinyin = ?]. *)
Definition updateWordFrequency (dm : t) (word pinyin : string) : t * bool :=
  match db_ dm with
  | None => (dm, false)
  | Some tbl =>
      (mk (db_path_ dm)
          (Some (alter (fun r => Sqlite.mkRow (Sqlite.frequency r + 1) (Sqlite.is_user_word r))
                       (Std.c_str word, Std.c_str pinyin) tbl)),
       true)
  end.

(** [DELETE FROM words WHERE word = ? AND pinyin = ? AND is_user_word = 1]. *)
Definition removeUserWord (dm : t) (word pinyin : string) : t * bool :=
  match db_ dm with
  | None => (dm, false)
  | Some tbl =>
      let key := (Std.c_str word, Std.c_str pinyin) in
      (mk (db_path_ dm)
          (Some (match tbl !! key with
                 | Some r => if Sqlite.is_user_word r then delete key tbl else tbl
                 | None => tbl
                 end)),
       true)
  end.

Definition learnUserInput (dm : t) (text : string) (pinyin_sequence : list string) : t * bool :=
  if Str.empty text || bool_decide (pinyin_sequence = []) then (dm, false)
  else
    let combined_pinyin := join_pinyins pinyin_sequence in
    addUserWord dm text combined_pinyin 1.

End DictionaryManager.

(** ** PredictionEngine (the specification's PredictionAdapter) *)

(** The language-model collaborator, through the calls [prediction_engine.cpp]
    makes on it.  [generateText] answers [None] when it throws. *)
Class LlamaPredictor := {
  llama : Type;
  llama_new : llama;
  llama_initialize : string -> llama -> llama * bool;
  llama_shutdown : llama -> llama;
  llama_isModelLoaded : llama -> bool;
  llama_generateText : llama -> string -> Z -> option string;
  llama_getNextWordProbability : llama -> string -> string -> Q
}.

Module PredictionEngine.
Section WithCollaborators.
Context `{StdSort} `{LlamaPredictor}.

Record t := mk {
  model_path_ : string;
  llama_predictor_ : option llama;
  prediction_threshold_ : Q;
  initialized_ : bool;
  user_patterns_ : gmap string (list string)
}.

Definition set_initialized_ (b : bool) (pe : t) : t :=
  mk (model_path_ pe) (llama_predictor_ pe) (prediction_threshold_ pe) b (user_patterns_ pe).

Definition set_llama_predictor_ (l : option llama) (pe : t) : t :=
  mk (model_path_ pe) l (prediction_threshold_ pe) (initialized_ pe) (user_patterns_ pe).

Definition new (model_path : string) : t :=
  mk model_path (Some llama_new) (1 # 2) false ∅.

(** [initialize]: [model_file_good] is the outcome of opening the model
    file for reading. *)
Definition initialize (model_file_good : bool) (pe : t) : t * bool :=
  if Str.empty (model_path_ pe) then (pe, true)
  else if negb model_file_good then (pe, true)
  else
    match llama_predictor_ pe with
    | None => (pe, false)
    | Some l =>
        let '(l', ok) := llama_initialize (model_path_ pe) l in
        let pe := set_llama_predictor_ (Some l') pe in
        if negb ok then (pe, false)
        else (set_initialized_ true pe, true)
    end.

Definition shutdown (pe : t) : t :=
  let pe := match llama_predictor_ pe with
            | Some l => set_llama_predictor_ (Some (llama_shutdown l)) pe
            | None => pe
            end in
  set_initialized_ false pe.

Definition isAvailable (pe : t) : bool :=
  initialized_ pe
  && match llama_predictor_ pe with
     | Some l => llama_isModelLoaded l
     | None => false
     end.

Definition setPredictionThreshold (threshold : Q) (pe : t) : t :=
  mk (model_path_ pe) (llama_predictor_ pe) (Qmax 0 (Qmin 1 threshold)) (initialized_ pe)
     (user_patterns_ pe).

Definition getPredictionThreshold (pe : t) : Q := prediction_threshold_ pe.

(** The text of the collaborator once [isAvailable] has been checked. *)
Definition generateText (pe : t) (prompt : string) (max_tokens : Z) : option string :=
  match llama_predictor_ pe with
  | Some l => llama_generateText l prompt max_tokens
  | None => None
  end.

(** The splitting loop of [parseGeneratedText]: [current_word] and [words]
    are its two local variables. *)
Fixpoint split_words (text : list ascii) (current_word : string) (words : list string)
  : list string :=
  match text with
  | [] => if Str.empty current_word then words else words ++ [current_word]
  | c :: text' =>
      if Std.isspace c || Std.ispunct c then
        (if Str.empty current_word then split_words text' current_word words
         else split_words text' EmptyString (words ++ [current_word]))
      else split_words text' (Str.push_back current_word c) words
  end.

Definition parseGeneratedText (generated_text context : string) : list string :=
  let words := split_words (list_ascii_of_string generated_text) EmptyString [] in
  filter (fun word => Str.find context word = None) words.

(** [iss >> word] until the stream ends: the maximal runs of non-space bytes. *)
Fixpoint stream_words (text : list ascii) (current_word : string) (words : list string)
  : list string :=
  match text with
  | [] => if Str.empty current_word then words else words ++ [current_word]
  | c :: text' =>
      if Std.isspace c then
        (if Str.empty current_word then stream_words text' current_word words
         else stream_words text' EmptyString (words ++ [current_word]))
      else stream_words text' (Str.push_back current_word c) words
  end.

(** [std::unique]: of each run of equal neighbours the first is kept. *)
Fixpoint unique (l : list string) : list string :=
  match l with
  | [] => []
  | x :: l' =>
      match l' with
      | y :: _ => if String.eqb x y then unique l' else x :: unique l'
      | [] => [x]
      end
  end.

Definition parseCompletions (generated_text partial_text : string) : list string :=
  let completions :=
    filter (fun word => Str.find word partial_text = Some 0%nat
                        /\ (String.length partial_text < String.length word)%nat)
           (stream_words (list_ascii_of_string generated_text) EmptyString []) in
  (* strings have one sorted order, whatever the algorithm *)
  let completions := merge_sort (fun a b => String.leb a b) completions in
  unique completions.

(** The loop of [parsePinyinPredictions]: a byte with its top bit set that
    has two more bytes after it starts a three-byte character. *)
Fixpoint wide_runs (text : list ascii) (current_word : string) (predictions : list string)
  : list string :=
  match text with
  | [] => if Str.empty current_word then predictions else predictions ++ [current_word]
  | c :: text' =>
      let narrow :=
        if Str.empty current_word then wide_runs text' current_word predictions
        else wide_runs text' EmptyString (predictions ++ [current_word]) in
      match text' with
      | c2 :: c3 :: text'' =>
          if negb (Z.land (Std.code c) 128 =? 0) then
            wide_runs text'' (current_word +:+ String c (String c2 (String c3 EmptyString)))
                      predictions
          else narrow
      | _ => narrow
      end
  end.

Definition parsePinyinPredictions (generated_text pinyin_sequence : string) : list string :=
  wide_runs (list_ascii_of_string generated_text) EmptyString [].

Definition calculateCompletionScore (partial_text completion : string) : Q :=
  if (String.length completion <=? String.length partial_text)%nat then 0%Q
  else
    let length_score :=
      (1 / inject_Z (Z.of_nat (String.length completion - String.length partial_text + 1)))%Q in
    let base_score := (7 # 10)%Q in
    (base_score + length_score * (3 # 10))%Q.

Definition calculatePinyinScore (pe : t) (word pinyin_sequence context : string) : Q :=
  let base_score := (6 # 10)%Q in
  let base_score :=
    match user_patterns_ pe !! pinyin_sequence with
    | Some patterns =>
        if existsb (fun pattern => String.eqb pattern word) patterns
        then (base_score + (3 # 10))%Q else base_score
    | None => base_score
    end in
  let base_score :=
    if negb (Str.empty context) && bool_decide (Str.find context word = None)
    then (base_score + (1 # 10))%Q else base_score in
  Qmin 1 base_score.

Definition generatePinyin (word : string) : string := "pinyin".

(** The shape the three prediction loops share: stop once [max] candidates
    are collected, keep a word when its score reaches the threshold. *)
Fixpoint collect (pe : t) (max : Z) (words : list string) (candidate : string -> Candidate)
    (predictions : list Candidate) : list Candidate :=
  match words with
  | [] => predictions
  | word :: words' =>
      if Std.to_size_t max <=? Z.of_nat (length predictions) then predictions
      else
        let c := candidate word in
        collect pe max words' candidate
          (if Qle_bool (prediction_threshold_ pe) (score c)
           then predictions ++ [c] else predictions)
  end.

Definition predictNextWords (pe : t) (context : string) (max_predictions : Z)
  : list Candidate :=
  if negb (isAvailable pe) then []
  else
    match generateText pe context (max_predictions * 10) with
    | None => []
    | Some generated_text =>
        if Str.empty generated_text then []
        else
          let words := parseGeneratedText generated_text context in
          let predictions :=
            collect pe max_predictions words
              (fun word =>
                 let probability :=
                   match llama_predictor_ pe with
                   | Some l => llama_getNextWordProbability l context word
                   | None => 0%Q
                   end in
                 mkCandidate word (generatePinyin word) probability 0 true) [] in
          sort_by_score predictions
    end.

Definition completePartialInput (pe : t) (partial_text : string) (max_completions : Z)
  : list Candidate :=
  if negb (isAvailable pe) || Str.empty partial_text then []
  else
    let prompt := "请补全以下文本：" +:+ partial_text in
    match generateText pe prompt (max_completions * 20) with
    | None => []
    | Some generated_text =>
        if Str.empty generated_text then []
        else
          let completions_text := parseCompletions generated_text partial_text in
          collect pe max_completions completions_text
            (fun completion =>
               mkCandidate completion (generatePinyin completion)
                 (calculateCompletionScore partial_text completion) 0 true) []
    end.

Definition predictFromPinyin (pe : t) (pinyin_sequence context : string) (max_predictions : Z)
  : list Candidate :=
  if negb (isAvailable pe) then []
  else
    let prompt := "根据拼音'" +:+ pinyin_sequence +:+ "'和上下文'" +:+ context
                  +:+ "'，预测可能的中文词汇：" in
    match generateText pe prompt (max_predictions * 15) with
    | None => []
    | Some generated_text =>
        if Str.empty generated_text then []
        else
          let predicted_words := parsePinyinPredictions generated_text pinyin_sequence in
          collect pe max_predictions predicted_words
            (fun word =>
               mkCandidate word pinyin_sequence
                 (calculatePinyinScore pe word pinyin_sequence context) 0 true) []
    end.

End WithCollaborators.
End PredictionEngine.

(** ** Engine (the specification's InputSessionController) *)

(** The calls the engine makes on its three callbacks. *)
Inductive Notification :=
| CandidatesChanged (candidates : list Candidate)
| TextCommitted (text : string)
| StateChanged (state : InputState).

#[global] Instance InputState_eq_dec : EqDecision InputState.
Proof. solve_decision. Defined.

Module Engine.
Section WithCollaborators.
Context `{StdSort} `{LlamaPredictor}.

(** The three callback members say whether a callback is set; what the
    callbacks were called with is collected in [notifications], oldest
    first. *)
Record t := mk {
  config_ : EngineConfig;
  state_ : InputState;
  composition_ : string;
  candidates_ : list Candidate;
  pinyin_converter_ : PinyinConverter.t;
  dictionary_manager_ : DictionaryManager.t;
  prediction_engine_ : option PredictionEngine.t;
  candidate_callback_ : bool;
  commit_callback_ : bool;
  state_change_callback_ : bool;
  notifications : list Notification
}.

Definition set_config_ (c : EngineConfig) (e : t) : t :=
  mk c (state_ e) (composition_ e) (candidates_ e) (pinyin_converter_ e)
     (dictionary_manager_ e) (prediction_engine_ e) (candidate_callback_ e)
     (commit_callback_ e) (state_change_callback_ e) (notifications e).

Definition set_state_ (s : InputState) (e : t) : t :=
  mk (config_ e) s (composition_ e) (candidates_ e) (pinyin_converter_ e)
     (dictionary_manager_ e) (prediction_engine_ e) (candidate_callback_ e)
     (commit_callback_ e) (state_change_callback_ e) (notifications e).

Definition set_composition_ (s : string) (e : t) : t :=
  mk (config_ e) (state_ e) s (candidates_ e) (pinyin_converter_ e)
     (dictionary_manager_ e) (prediction_engine_ e) (candidate_callback_ e)
     (commit_callback_ e) (state_change_callback_ e) (notifications e).

Definition set_candidates_ (l : list Candidate) (e : t) : t :=
  mk (config_ e) (state_ e) (composition_ e) l (pinyin_converter_ e)
     (dictionary_manager_ e) (prediction_engine_ e) (candidate_callback_ e)
     (commit_callback_ e) (state_change_callback_ e) (notifications e).

Definition set_pinyin_converter_ (pc : PinyinConverter.t) (e : t) : t :=
  mk (config_ e) (state_ e) (composition_ e) (candidates_ e) pc
     (dictionary_manager_ e) (prediction_engine_ e) (candidate_callback_ e)
     (commit_callback_ e) (state_change_callback_ e) (notifications e).

Definition set_dictionary_manager_ (dm : DictionaryManager.t) (e : t) : t :=
  mk (config_ e) (state_ e) (composition_ e) (candidates_ e) (pinyin_converter_ e)
     dm (prediction_engine_ e) (candidate_callback_ e)
     (commit_callback_ e) (state_change_callback_ e) (notifications e).

Definition set_prediction_engine_ (pe : option PredictionEngine.t) (e : t) : t :=
  mk (config_ e) (state_ e) (composition_ e) (candidates_ e) (pinyin_converter_ e)
     (dictionary_manager_ e) pe (candidate_callback_ e)
     (commit_callback_ e) (state_change_callback_ e) (notifications e).

Definition notify (n : Notification) (e : t) : t :=
  mk (config_ e) (state_ e) (composition_ e) (candidates_ e) (pinyin_converter_ e)
     (dictionary_manager_ e) (prediction_engine_ e) (candidate_callback_ e)
     (commit_callback_ e) (state_change_callback_ e) (notifications e ++ [n]).

(** [Engine::Engine(config)], with the callbacks a host has set or not. *)
Definition new (config : EngineConfig) (candidate_cb commit_cb state_change_cb : bool) : t :=
  mk config IDLE EmptyString [] PinyinConverter.new
     (DictionaryManager.new (dictionary_path config))
     (if enable_prediction config then Some (PredictionEngine.new (model_path config))
      else None)
     candidate_cb commit_cb state_change_cb [].

(** [initialize]: [disk] and [model_file_good] are what the dictionary
    manager and the prediction engine find in the file system. *)
Definition initialize (disk : option Sqlite.words) (model_file_good : bool) (e : t) : t * bool :=
  let '(pc, ok) := PinyinConverter.initialize (pinyin_converter_ e) in
  let e := set_pinyin_converter_ pc e in
  if negb ok then (e, false)
  else
    let '(dm, ok) := DictionaryManager.initialize disk (dictionary_manager_ e) in
    let e := set_dictionary_manager_ dm e in
    if negb ok then (e, false)
    else
      match prediction_engine_ e with
      | Some pe =>
          let '(pe', ok) := PredictionEngine.initialize model_file_good pe in
          if negb ok then (set_prediction_engine_ None e, true)
          else (set_prediction_engine_ (Some pe') e, true)
      | None => (e, true)
      end.

Definition setState (new_state : InputState) (e : t) : t :=
  if bool_decide (state_ e <> new_state) then
    let e := set_state_ new_state e in
    if state_change_callback_ e then notify (StateChanged (state_ e)) e else e
  else e.

Definition clearComposition (e : t) : t :=
  let e := set_composition_ EmptyString e in
  let e := set_candidates_ [] e in
  let e := set_pinyin_converter_ (PinyinConverter.clear (pinyin_converter_ e)) e in
  let e := setState IDLE e in
  if candidate_callback_ e then notify (CandidatesChanged (candidates_ e)) e else e.

(** The duplicate filter of [updateCandidates]: a predicted candidate is
    appended unless a candidate already in the list has its text or its
    score is below the configured threshold. *)
Definition add_prediction (threshold : Q) (candidates : list Candidate)
    (pred_candidate : Candidate) : list Candidate :=
  let duplicate :=
    existsb (fun existing => String.eqb (text existing) (text pred_candidate)) candidates in
  if negb duplicate && Qle_bool threshold (score pred_candidate)
  then candidates ++ [pred_candidate] else candidates.

(** The candidate list of [updateCandidates] as it stands before the sort:
    the dictionary results, then the predictions that pass the filter. *)
Definition merged_candidates (e : t) : list Candidate :=
  let dict_candidates :=
    DictionaryManager.searchByPinyin (dictionary_manager_ e) (composition_ e)
      (max_candidates (config_ e)) in
  let candidates := [] ++ dict_candidates in
  match prediction_engine_ e with
  | Some pe =>
      if PredictionEngine.isAvailable pe then
        let predicted_candidates :=
          PredictionEngine.predictFromPinyin pe (composition_ e) EmptyString
            (Z.max 1 (max_candidates (config_ e)
                      - Std.to_int (Z.of_nat (length candidates)))) in
        fold_left (add_prediction (prediction_threshold (config_ e)))
                  predicted_candidates candidates
      else candidates
  | None => candidates
  end.

Definition updateCandidates (e : t) : t :=
  let e := set_composition_ (PinyinConverter.getCurrentPinyin (pinyin_converter_ e)) e in
  let e := set_candidates_ [] e in
  if Str.empty (composition_ e) then
    let e := setState IDLE e in
    if candidate_callback_ e then notify (CandidatesChanged (candidates_ e)) e else e
  else
    let e := set_candidates_ (merged_candidates e) e in
    let e := set_candidates_ (sort_by_score (candidates_ e)) e in
    let e :=
      if Std.to_size_t (max_candidates (config_ e)) <? Z.of_nat (length (candidates_ e))
      then set_candidates_
             (take (Z.to_nat (Std.to_size_t (max_candidates (config_ e)))) (candidates_ e)) e
      else e in
    let e := setState SELECTING e in
    if candidate_callback_ e then notify (CandidatesChanged (candidates_ e)) e else e.

Definition selectCandidate (index : Z) (e : t) : t * bool :=
  if (index <? 0) || (Std.to_int (Z.of_nat (length (candidates_ e))) <=? index)
  then (e, false)
  else
    match candidates_ e !! Z.to_nat index with
    | None => (e, false)
    | Some candidate =>
        let e :=
          if enable_learning (config_ e) then
            set_dictionary_manager_
              (DictionaryManager.updateWordFrequency (dictionary_manager_ e)
                 (text candidate) (pinyin candidate)).1 e
          else e in
        let e := if commit_callback_ e then notify (TextCommitted (text candidate)) e else e in
        (clearComposition e, true)
    end.

Definition commitComposition (e : t) : t * string :=
  let result := composition_ e in
  let e := if commit_callback_ e && negb (Str.empty result)
           then notify (TextCommitted result) e else e in
  (clearComposition e, result).

Definition handleKeyPress (event : InputEvent) (e : t) : t * bool :=
  let ch := Std.to_char (key_code event) in
  if key_code event =? 8 then
    if negb (Str.empty (composition_ e)) then
      let e := set_pinyin_converter_
                 (PinyinConverter.removeLastChar (pinyin_converter_ e)).1 e in
      (updateCandidates e, true)
    else (e, false)
  else if key_code event =? 27 then (clearComposition e, true)
  else if key_code event =? 13 then
    if negb (Str.empty (composition_ e)) then ((commitComposition e).1, true)
    else (e, false)
  else
    let index := Std.code ch - Std.code "1" in
    if Std.in_range "1" "9" ch && (index <? Std.to_int (Z.of_nat (length (candidates_ e))))
    then ((selectCandidate index e).1, true)
    else if Std.in_range "a" "z" ch || Std.in_range "A" "Z" ch then
      let ch := Std.tolower ch in
      let '(pc, ok) := PinyinConverter.addChar ch (pinyin_converter_ e) in
      if ok then
        let e := set_pinyin_converter_ pc e in
        let e := updateCandidates e in
        let e := setState COMPOSING e in
        (e, true)
      else (e, false)
    else (e, false).

Definition handleCandidateSelect (event : InputEvent) (e : t) : t * bool :=
  match Std.stoi (data event) with
  | Some index => selectCandidate index e
  | None => (e, false)
  end.

Definition handleCommitText (event : InputEvent) (e : t) : t * bool :=
  let e := if commit_callback_ e then notify (TextCommitted (data event)) e else e in
  (clearComposition e, true).

Definition processInput (event : InputEvent) (e : t) : t * bool :=
  match type event with
  | KEY_PRESS => handleKeyPress event e
  | CANDIDATE_SELECT => handleCandidateSelect event e
  | COMMIT_TEXT => handleCommitText event e
  | CLEAR_COMPOSITION => (clearComposition e, true)
  | KEY_RELEASE => (e, false)
  end.

(** A run of events, with the value [processInput] returns for each. *)
Fixpoint processInputs (events : list InputEvent) (e : t) : t * list bool :=
  match events with
  | [] => (e, [])
  | event :: events' =>
      let '(e, ok) := processInput event e in
      let '(e, oks) := processInputs events' e in
      (e, ok :: oks)
  end.

End WithCollaborators.
End Engine.

(** A key-press event for the character [c]. *)
Definition key (c : ascii) : InputEvent := mkInputEvent KEY_PRESS EmptyString (Std.code c).

(** ** Instances of the collaborators *)

Module Instances.

(** Insertion sort by descending score.  [before c d] decides whether [c]
    goes in front of [d]. *)
Fixpoint insert_by_score (before : Candidate -> Candidate -> bool) (c : Candidate)
    (l : list Candidate) : list Candidate :=
  match l with
  | [] => [c]
  | d :: l' => if before c d then c :: d :: l' else d :: insert_by_score before c l'
  end.

Definition insertion_sort (before : Candidate -> Candidate -> bool) (l : list Candidate)
  : list Candidate :=
  foldr (insert_by_score before) [] l.

(** [c] goes in front of the first element that is not above it: equal
    scores keep their order (a stable sort). *)
Definition before_stable (c d : Candidate) : bool := Qle_bool (score d) (score c).

(** [c] goes in front of the first element strictly below it: equal scores
    come out in reverse order. *)
Definition before_strict (c d : Candidate) : bool := Std.Qgtb (score c) (score d).

(** The implementation of [LlamaPredictor] the sources build without
    llama.cpp: no model is ever loaded. *)
#[local] Instance dummy_llama : LlamaPredictor := {|
  llama := unit;
  llama_new := tt;
  llama_initialize := fun _ l => (l, true);
  llama_shutdown := fun l => l;
  llama_isModelLoaded := fun _ => false;
  llama_generateText := fun _ _ _ => Some EmptyString;
  llama_getNextWordProbability := fun _ _ _ => 0%Q
|}.

(** A predictor for tests: its model is loaded once initialized, and it
    answers every prompt with [answer]. *)
Definition scripted_llama (answer : string) : LlamaPredictor := {|
  llama := bool;
  llama_new := false;
  llama_initialize := fun _ _ => (true, true);
  llama_shutdown := fun _ => false;
  llama_isModelLoaded := fun l => l;
  llama_generateText := fun _ _ _ => Some answer;
  llama_getNextWordProbability := fun _ _ _ => 1%Q
|}.

End Instances.

(** ** The remaining operations of the four classes *)

Module PinyinConverterOps.

(** [normalizePinyin]: every byte through [::tolower], then the bytes that
    are not letters erased.  The method reads no member. *)
Definition normalizePinyin (pinyin : string) : string :=
  let normalized := map Std.tolower (list_ascii_of_string pinyin) in
  string_of_list_ascii (filter (fun c => Std.isalpha c = true) normalized).

End PinyinConverterOps.

Module DictionaryManagerOps.
Import DictionaryManager.

(** [getWordInfo(word, pinyin)]: the first of at most 100 results of
    [searchByPinyin(pinyin)] with that text and that pinyin; [None] for the
    null pointer. *)
Definition getWordInfo (dm : t) (word word_pinyin : string) : option Candidate :=
  let candidates := searchByPinyin dm word_pinyin 100 in
  List.find (fun candidate => String.eqb (text candidate) word
                              && String.eqb (pinyin candidate) word_pinyin)
            candidates.

(** The rows [DELETE FROM words WHERE is_user_word = 1 AND frequency < ?]
    removes. *)
Definition low_frequency_user_word (min_frequency : Z) (kr : (string * string) * Sqlite.row)
  : Prop :=
  Sqlite.is_user_word kr.2 = true /\ Sqlite.frequency kr.2 < min_frequency.

#[global] Instance low_frequency_user_word_dec (min_frequency : Z)
    (kr : (string * string) * Sqlite.row) : Decision (low_frequency_user_word min_frequency kr).
Proof. unfold low_frequency_user_word. apply _. Defined.

(** [cleanupLowFrequencyWords(min_frequency)]: the value returned is
    [sqlite3_changes], the number of rows deleted, as an [int]. *)
Definition cleanupLowFrequencyWords (dm : t) (min_frequency : Z) : t * Z :=
  match db_ dm with
  | None => (dm, 0)
  | Some tbl =>
      let kept := filter (fun kr => ~ low_frequency_user_word min_frequency kr) tbl in
      let deleted := Std.to_int (Z.of_nat (size tbl - size kept)) in
      (mk (db_path_ dm) (Some kept), deleted)
  end.

End DictionaryManagerOps.

Module PredictionEngineOps.
Import PredictionEngine.
Section WithCollaborators.
Context `{LlamaPredictor}.


End WithCollaborators.
End PredictionEngineOps.

Module EngineOps.
Import Engine.
Section WithCollaborators.
Context `{LlamaPredictor}.

(** [Engine::Impl::shutdown]. *)
Definition shutdown (e : t) : t :=
  let e := match prediction_engine_ e with
           | Some pe => set_prediction_engine_ (Some (PredictionEngine.shutdown pe)) e
           | None => e
           end in
  let e := set_dictionary_manager_ (DictionaryManager.shutdown (dictionary_manager_ e)) e in
  clearComposition e.

(** [Engine::updateConfig]. *)
Definition updateConfig (config : EngineConfig) (e : t) : t := set_config_ config e.

End WithCollaborators.
End EngineOps.

(** ** Facts about strings *)

Module StrFacts.
Import Str.

Abbreviation bytes := list_ascii_of_string.

Lemma bytes_app (a b : string) : bytes (a +:+ b) = bytes a ++ bytes b.
Proof. induction a as [|c a IH]; simpl; [done | by rewrite IH]. Qed.

Lemma bytes_inj (a b : string) : bytes a = bytes b -> a = b.
Proof.
  intros H. rewrite <- (string_of_list_ascii_of_string a), <- (string_of_list_ascii_of_string b).
  by rewrite H.
Qed.

Lemma bytes_length (s : string) : length (bytes s) = String.length s.
Proof. induction s as [|c s IH]; simpl; [done | by rewrite IH]. Qed.

Lemma bytes_substr (s : string) (pos len : nat) :
  bytes (substr s pos len) = take len (drop pos (bytes s)).
Proof.
  unfold substr. revert pos len. induction s as [|c s IH]; intros pos len.
  - destruct pos, len; done.
  - destruct pos as [|pos]; simpl.
    + destruct len as [|len]; simpl; [done|]. by rewrite (IH 0%nat len), drop_0.
    + apply IH.
Qed.

Lemma bytes_push_back (s : string) (ch : ascii) : bytes (push_back s ch) = bytes s ++ [ch].
Proof. unfold push_back. by rewrite bytes_app. Qed.

Lemma bytes_pop_back (s : string) : bytes (pop_back s) = removelast (bytes s).
Proof.
  induction s as [|c s IH]; [done|].
  destruct s as [|d s]; [done|]. simpl in *. by rewrite IH.
Qed.

Lemma app_empty_r (s : string) : s +:+ EmptyString = s.
Proof. apply bytes_inj. by rewrite bytes_app, app_nil_r. Qed.

Lemma app_assoc (a b c : string) : (a +:+ b) +:+ c = a +:+ (b +:+ c).
Proof. apply bytes_inj. by rewrite !bytes_app, List.app_assoc. Qed.

Lemma is_prefix_of_bytes (p s : string) : is_prefix_of p s <-> bytes p `prefix_of` bytes s.
Proof.
  split.
  - intros [rest ->]. exists (bytes rest). apply bytes_app.
  - intros [k Hk]. exists (string_of_list_ascii k). apply bytes_inj.
    by rewrite bytes_app, list_ascii_of_string_of_list_ascii.
Qed.

Lemma prefix_true (p s : string) : String.prefix p s = true <-> is_prefix_of p s.
Proof.
  revert s. induction p as [|c p IH]; intros [|d s]; simpl.
  - split; [intros _; by exists EmptyString | done].
  - split; [intros _; by exists (String d s) | done].
  - split; [done | intros [rest Hrest]; discriminate].
  - destruct (Ascii.ascii_dec c d) as [->|Hne].
    + rewrite IH. split; intros [rest Hrest]; exists rest.
      * simpl. by rewrite Hrest.
      * simpl in Hrest. by injection Hrest.
    + split; [done | intros [rest Hrest]; injection Hrest as Hd _; congruence].
Qed.

Lemma is_prefix_of_length (p s : string) :
  is_prefix_of p s -> (String.length p <= String.length s)%nat.
Proof.
  rewrite is_prefix_of_bytes. intros H%prefix_length. by rewrite !bytes_length in H.
Qed.

Lemma is_prefix_of_refl (s : string) : is_prefix_of s s.
Proof. exists EmptyString. by rewrite app_empty_r. Qed.

Lemma is_prefix_of_pop_back (p s : string) : is_prefix_of p s -> is_prefix_of (pop_back p) s.
Proof.
  rewrite !is_prefix_of_bytes, bytes_pop_back. intros [k Hk].
  destruct (bytes p) as [|c l] eqn:E using rev_ind; [by exists k|].
  rewrite removelast_last. exists ([c] ++ k). by rewrite Hk, <- List.app_assoc.
Qed.

Lemma empty_true (s : string) : empty s = true <-> s = EmptyString.
Proof. by destruct s. Qed.

Lemma concat_all_snoc (l : list string) (s : string) :
  concat_all (l ++ [s]) = concat_all l +:+ s.
Proof.
  induction l as [|x l IH]; simpl.
  - apply app_empty_r.
  - by rewrite IH, app_assoc.
Qed.

Lemma substr_all (s : string) (n : nat) :
  (String.length s <= n)%nat -> substr s 0 n = s.
Proof.
  intros H. apply bytes_inj. rewrite bytes_substr, drop_0.
  apply take_ge. by rewrite bytes_length.
Qed.

Lemma substr_0_0 (s : string) : substr s 0 0 = EmptyString.
Proof. by destruct s. Qed.

Lemma substr_split (s : string) (pos len : nat) :
  substr s 0 pos +:+ substr s pos len = substr s 0 (pos + len).
Proof.
  apply bytes_inj. rewrite bytes_app, !bytes_substr, !drop_0. apply take_take_drop.
Qed.

Lemma fold_left_ext_in {A B : Type} (f g : A -> B -> A) (l : list B) (a : A) :
  (forall a x, x ∈ l -> f a x = g a x) -> fold_left f l a = fold_left g l a.
Proof.
  revert a. induction l as [|x l IH]; intros a H; [done|]. simpl.
  rewrite (H a x) by left. apply IH. intros a' y Hy. apply H. by right.
Qed.

End StrFacts.

(** ** Properties of the segmenter *)

Module PinyinFacts.
Import Str StrFacts PinyinConverter.

#[local] Arguments STANDARD_PINYINS : simpl never.
#[local] Arguments loadPinyinData : simpl never.
#[local] Arguments new : simpl never.

Lemma starts_with_true (pinyin test_pinyin : string) :
  starts_with pinyin test_pinyin = true <-> is_prefix_of test_pinyin pinyin.
Proof.
  unfold starts_with. rewrite andb_true_iff, Nat.leb_le, String.eqb_eq, is_prefix_of_bytes.
  split.
  - intros [_ Hsub]. exists (drop (String.length test_pinyin) (bytes pinyin)).
    apply (f_equal bytes) in Hsub. rewrite bytes_substr, drop_0 in Hsub.
    rewrite <- Hsub. by rewrite take_drop.
  - intros [k Hk]. split.
    + rewrite <- !bytes_length, Hk, length_app. lia.
    + apply bytes_inj. rewrite bytes_substr, drop_0, Hk, <- bytes_length.
      by rewrite take_app_length.
Qed.

(** Some table entry starts with [b]. *)
Definition in_table (b : string) : bool :=
  existsb (fun pinyin => starts_with pinyin b) STANDARD_PINYINS.

Lemma in_table_true (b : string) :
  in_table b = true <-> exists syl, syl ∈ STANDARD_PINYINS /\ is_prefix_of b syl.
Proof.
  unfold in_table. rewrite existsb_exists. split.
  - intros (syl & Hin & Hs). exists syl. by rewrite list_elem_of_In, <- starts_with_true.
  - intros (syl & Hin & Hs). exists syl. by rewrite <- list_elem_of_In, starts_with_true.
Qed.

(** The map [pinyin_map_] that [loadPinyinData] builds. *)
Definition table_map : gmap string bool := pinyin_map_ (loadPinyinData new).1.

Definition loaded (pc : t) : Prop :=
  valid_pinyins_ pc = STANDARD_PINYINS /\ pinyin_map_ pc = table_map.

Definition unloaded (pc : t) : Prop :=
  valid_pinyins_ pc = [] /\ pinyin_map_ pc = ∅.

Definition buffer_ok (b : string) : Prop :=
  b = EmptyString \/ exists syl, syl ∈ STANDARD_PINYINS /\ is_prefix_of b syl.

(** What every sequence of operations preserves. *)
Record inv (pc : t) : Prop := {
  inv_chars : valid_chars_ pc = valid_chars_ new;
  inv_table : unloaded pc \/ loaded pc;
  inv_buffer : buffer_ok (current_pinyin_ pc)
}.

Lemma inv_new : inv new.
Proof. split; [done | by left | by left]. Qed.

Lemma inv_initialize (pc : t) : inv pc -> inv (initialize pc).1 /\ loaded (initialize pc).1.
Proof. intros [Hc Ht Hb]. split; [split |]; try done. by right. Qed.

Lemma addChar_accepts (ch : ascii) (pc : t) :
  (addChar ch pc).2 = true ->
  (addChar ch pc).1 = set_current_pinyin_ (push_back (current_pinyin_ pc) ch) pc
  /\ existsb (fun pinyin => starts_with pinyin (push_back (current_pinyin_ pc) ch))
       (valid_pinyins_ pc) = true.
Proof.
  unfold addChar. destruct (valid_chars_ pc !! ch); [|done].
  destruct (existsb _ _); done.
Qed.

Lemma addChar_rejects (ch : ascii) (pc : t) :
  (addChar ch pc).2 = false -> (addChar ch pc).1 = pc.
Proof.
  unfold addChar. destruct (valid_chars_ pc !! ch); [|done].
  destruct (existsb _ _); done.
Qed.

Lemma inv_addChar (ch : ascii) (pc : t) : inv pc -> inv (addChar ch pc).1.
Proof.
  intros Hinv. destruct (addChar ch pc).2 eqn:Hok.
  - apply addChar_accepts in Hok as [-> Hex]. destruct Hinv as [Hc Ht Hb].
    split; [done | done |]. simpl. right.
    destruct Ht as [[Hv _]|[Hv _]]; rewrite Hv in Hex; [done|].
    by apply in_table_true.
  - by rewrite addChar_rejects.
Qed.

Lemma inv_removeLastChar (pc : t) : inv pc -> inv (removeLastChar pc).1.
Proof.
  intros [Hc Ht Hb]. unfold removeLastChar.
  destruct (empty (current_pinyin_ pc)) eqn:He; [done|].
  split; [done | done |]. simpl. destruct Hb as [Hb|(syl & Hin & Hp)].
  - rewrite Hb. by left.
  - right. exists syl. split; [done|]. by apply is_prefix_of_pop_back.
Qed.

Lemma inv_clear (pc : t) : inv pc -> inv (clear pc).
Proof. intros [Hc Ht Hb]. split; [done | done | by left]. Qed.

Lemma inv_run_op (o : op) (pc : t) : inv pc -> inv (run_op o pc).
Proof.
  destruct o; cbn [run_op].
  - intros H. by apply inv_initialize.
  - apply inv_addChar.
  - apply inv_removeLastChar.
  - apply inv_clear.
Qed.

Lemma inv_run_ops (ops : list op) (pc : t) : inv pc -> inv (run_ops ops pc).
Proof.
  revert pc. induction ops as [|o ops IH]; intros pc Hinv; [done|].
  apply IH. by apply inv_run_op.
Qed.

Lemma loaded_run_op (o : op) (pc : t) : loaded pc -> loaded (run_op o pc).
Proof.
  intros [Hv Hm]. destruct o; cbn [run_op].
  - by split.
  - destruct (addChar ch pc).2 eqn:Hok.
    + by apply addChar_accepts in Hok as [-> _].
    + by rewrite addChar_rejects.
  - unfold removeLastChar. by destruct (empty _).
  - by split.
Qed.

Lemma loaded_run_ops (ops : list op) (pc : t) : loaded pc -> loaded (run_ops ops pc).
Proof.
  revert pc. induction ops as [|o ops IH]; intros pc H; [done|].
  apply IH. by apply loaded_run_op.
Qed.

(** Every table entry has at most six letters, all of them in [valid_chars_]. *)
Definition entry_ok (syl : string) : bool :=
  (String.length syl <=? 6)%nat
  && forallb (fun c => bool_decide (is_Some (valid_chars_ new !! c))) (bytes syl).

Lemma table_entries_ok : forallb entry_ok STANDARD_PINYINS = true.
Proof. vm_compute. reflexivity. Qed.

Lemma table_entry_ok (syl : string) : syl ∈ STANDARD_PINYINS -> entry_ok syl = true.
Proof.
  intros Hin%list_elem_of_In. by apply (proj1 (forallb_forall _ _) table_entries_ok).
Qed.

Lemma buffer_ok_length (b : string) : buffer_ok b -> (String.length b <= 6)%nat.
Proof.
  intros [->|(syl & Hin & Hp)]; [simpl; lia|].
  apply table_entry_ok in Hin. apply andb_true_iff in Hin as [Hlen%Nat.leb_le _].
  apply is_prefix_of_length in Hp. lia.
Qed.

Lemma table_letters_valid (b : string) (ch : ascii) (syl : string) :
  syl ∈ STANDARD_PINYINS -> is_prefix_of (push_back b ch) syl ->
  is_Some (valid_chars_ new !! ch).
Proof.
  intros Hin Hp. apply table_entry_ok in Hin. apply andb_true_iff in Hin as [_ Hall].
  rewrite forallb_forall in Hall.
  assert (In ch (bytes syl)) as Hch.
  { apply is_prefix_of_bytes in Hp as [k Hk]. rewrite Hk, bytes_push_back.
    apply in_or_app. left. apply in_or_app. right. by left. }
  apply Hall in Hch. by apply bool_decide_eq_true in Hch.
Qed.

(** *** Segmentation *)

Definition good_segmentation (pc : t) (pinyin : string) (seg : list string) : Prop :=
  seg <> [] /\ Forall (fun s => isValidPinyin pc s = true) seg /\ concat_all seg = pinyin.

Lemma segment_sound (fuel : nat) (pc : t) (pinyin : string) :
  forall (start : nat) (current : list string) (results : list (list string)),
    Forall (fun s => isValidPinyin pc s = true) current ->
    concat_all current = substr pinyin 0 start ->
    Forall (good_segmentation pc pinyin) results ->
    Forall (good_segmentation pc pinyin)
      (segmentPinyinRecursive fuel pc pinyin start current results).
Proof.
  induction fuel as [|fuel IH]; intros start current results Hcur Hcat Hres; [done|].
  cbn [segmentPinyinRecursive]. destruct (Nat.leb_spec (String.length pinyin) start) as [Hend|Hmore].
  - case_bool_decide as Hnil; [done|]. apply Forall_app. split; [done|].
    apply Forall_singleton. split; [done|]. split; [done|].
    by rewrite Hcat, substr_all.
  - generalize (seq 1 (String.length pinyin - start)). intros lens.
    revert results Hres. induction lens as [|len lens IHlens]; intros results Hres; [done|].
    cbn [fold_left]. apply IHlens.
    destruct (isValidPinyin pc (substr pinyin start len)) eqn:Hvalid; [|done].
    apply IH; [|by rewrite concat_all_snoc, Hcat, substr_split|done].
    apply Forall_app. split; [done|]. by apply Forall_singleton.
Qed.

(** The recursion never runs out of fuel: any two amounts above the number
    of letters still to be cut give the same result. *)
Lemma segment_fuel (pc : t) (pinyin : string) (fuel1 : nat) :
  forall (fuel2 start : nat) (current : list string) (results : list (list string)),
    (String.length pinyin - start < fuel1)%nat ->
    (String.length pinyin - start < fuel2)%nat ->
    segmentPinyinRecursive fuel1 pc pinyin start current results
    = segmentPinyinRecursive fuel2 pc pinyin start current results.
Proof.
  induction fuel1 as [|fuel1 IH]; intros fuel2 start current results H1 H2; [lia|].
  destruct fuel2 as [|fuel2]; [lia|]. cbn [segmentPinyinRecursive].
  destruct (Nat.leb_spec (String.length pinyin) start) as [Hend|Hmore]; [done|].
  apply fold_left_ext_in. intros acc len Hlen.
  apply list_elem_of_In, in_seq in Hlen.
  destruct (isValidPinyin pc _); [|done]. apply IH; lia.
Qed.

Lemma getPinyinSegments_fuel (pc : t) (fuel : nat) :
  (String.length (current_pinyin_ pc) < fuel)%nat ->
  getPinyinSegments pc
  = if empty (current_pinyin_ pc) then []
    else segmentPinyinRecursive fuel pc (current_pinyin_ pc) 0 [] [].
Proof.
  intros Hfuel. unfold getPinyinSegments. destruct (empty (current_pinyin_ pc)); [done|].
  apply segment_fuel; lia.
Qed.

Lemma table_map_lookup (l : list string) (m : gmap string bool) (s : string) :
  is_Some (fold_left (fun m pinyin => <[pinyin := true]> m) l m !! s)
  <-> s ∈ l \/ is_Some (m !! s).
Proof.
  revert m. induction l as [|x l IH]; intros m; simpl.
  - split; [by right | intros [H%elem_of_nil|H]; done].
  - rewrite IH, lookup_insert_is_Some, elem_of_cons. split.
    + intros [H|[H|[_ H]]]; [left; by right | left; by left | by right].
    + intros [[H|H]|H]; [right; by left | by left |].
      destruct (decide (x = s)); [right; by left | right; by right].
Qed.

Lemma isValidPinyin_loaded (pc : t) (s : string) :
  loaded pc -> isValidPinyin pc s = true <-> s ∈ STANDARD_PINYINS.
Proof.
  intros [_ Hm]. unfold isValidPinyin. rewrite Hm.
  change table_map with (fold_left (fun m pinyin => <[pinyin := true]> m) STANDARD_PINYINS (∅ : gmap string bool)).
  pose proof (table_map_lookup STANDARD_PINYINS ∅ s) as H.
  destruct (_ !! s) eqn:E.
  - split; [intros _|done]. destruct (proj1 H) as [Hin|Hs]; [by eexists|done|].
    rewrite lookup_empty in Hs. by destruct Hs.
  - split; [done|]. intros Hin. destruct (proj2 H (or_introl Hin)) as [? ?]. done.
Qed.

Lemma isValidPinyin_unloaded (pc : t) (s : string) :
  unloaded pc -> isValidPinyin pc s = false.
Proof. intros [_ Hm]. unfold isValidPinyin. by rewrite Hm, lookup_empty. Qed.

(** *** The claims about the segmenter *)

(** C2 (prefix gate).  On a converter that has been initialized, whatever
    operations came before: [addChar ch] succeeds exactly when some entry of
    the syllable table has buffer+[ch] as a prefix; on success the buffer
    becomes buffer+[ch], on failure the converter is left as it was. *)
Theorem C2_addChar_prefix_gate (ops : list op) (ch : ascii) :
  let pc := run_ops ops (initialize new).1 in
  let B := current_pinyin_ pc in
  ((addChar ch pc).2 = true
   <-> exists syl, syl ∈ STANDARD_PINYINS /\ is_prefix_of (push_back B ch) syl)
  /\ ((addChar ch pc).2 = true -> current_pinyin_ (addChar ch pc).1 = push_back B ch)
  /\ ((addChar ch pc).2 = false -> (addChar ch pc).1 = pc).
Proof.
  intros pc B.
  assert (inv pc) as Hinv by (apply inv_run_ops, inv_initialize, inv_new).
  assert (loaded pc) as [Hv Hm] by (apply loaded_run_ops, inv_initialize, inv_new).
  split; [|split].
  - rewrite <- in_table_true. unfold addChar, in_table, B.
    destruct (valid_chars_ pc !! ch) eqn:Hch.
    + rewrite Hv. by destruct (existsb _ _).
    + split; [done|]. intros Hex. exfalso.
      apply existsb_exists in Hex as (syl & Hin%list_elem_of_In & Hs%starts_with_true).
      pose proof (table_letters_valid _ _ _ Hin Hs) as Hsome.
      rewrite <- (inv_chars _ Hinv), Hch in Hsome. by destruct Hsome.
  - intros Hok. by apply addChar_accepts in Hok as [-> _].
  - apply addChar_rejects.
Qed.

(** C9 (buffer invariant).  After any sequence of [initialize], [addChar],
    [removeLastChar] and [clear] on a fresh converter, the buffer is empty or
    a prefix of a table entry; the longest entry has six letters, so the
    buffer has at most six. *)
Theorem C9_buffer_invariant (ops : list op) :
  let b := current_pinyin_ (run_ops ops new) in
  (b = EmptyString \/ exists syl, syl ∈ STANDARD_PINYINS /\ is_prefix_of b syl)
  /\ max_list (String.length <$> STANDARD_PINYINS) = 6%nat
  /\ (String.length b <= 6)%nat.
Proof.
  intros b. pose proof (inv_buffer _ (inv_run_ops ops new inv_new)) as Hb.
  split; [exact Hb|]. split; [by vm_compute|]. by apply buffer_ok_length.
Qed.

(** C10 (segmentations are sound).  Every segmentation [getPinyinSegments]
    returns is a non-empty sequence of table syllables whose concatenation
    is the current buffer. *)
Theorem C10_segments_sound (ops : list op) (seg : list string) :
  let pc := run_ops ops new in
  seg ∈ getPinyinSegments pc ->
  seg <> [] /\ Forall (fun s => s ∈ STANDARD_PINYINS) seg
  /\ concat_all seg = current_pinyin_ pc.
Proof.
  intros pc Hseg. unfold getPinyinSegments in Hseg.
  destruct (empty (current_pinyin_ pc)); [by apply elem_of_nil in Hseg|].
  pose proof (segment_sound (S (String.length (current_pinyin_ pc))) pc (current_pinyin_ pc)
                0 [] [] (Forall_nil_2 _) (eq_sym (substr_0_0 _)) (Forall_nil_2 _)) as Hall.
  rewrite Forall_forall in Hall. destruct (Hall seg Hseg) as (Hne & Hvalid & Hcat).
  split; [done|]. split; [|done].
  destruct (inv_table _ (inv_run_ops ops new inv_new)) as [Hun|Hld].
  - destruct seg as [|s seg]; [done|]. apply Forall_cons in Hvalid as [Hs _].
    by rewrite (isValidPinyin_unloaded pc s Hun) in Hs.
  - eapply Forall_impl; [exact Hvalid|]. intros s Hs. by apply (isValidPinyin_loaded pc s Hld).
Qed.

(** The buffer ["xian"] has the two segmentations the specification names. *)
Lemma C10_segments_sound_witness :
  let ops := [OpInitialize; OpAddChar "x"; OpAddChar "i"; OpAddChar "a"; OpAddChar "n"]%char in
  ["xi"; "an"] ∈ getPinyinSegments (run_ops ops new)
  /\ (["xi"; "an"] <> [] /\ Forall (fun s => s ∈ STANDARD_PINYINS) ["xi"; "an"]
      /\ concat_all ["xi"; "an"] = current_pinyin_ (run_ops ops new)).
Proof.
  intros ops.
  assert (["xi"; "an"] ∈ getPinyinSegments (run_ops ops new)) as Hin.
  { replace (getPinyinSegments (run_ops ops new)) with [["xi"; "an"]; ["xian"]]
      by (vm_compute; reflexivity).
    left. }
  split; [exact Hin|]. exact (C10_segments_sound ops ["xi"; "an"] Hin).
Defined.

End PinyinFacts.

(** ** Two conforming implementations of [std::sort] *)

Module SortFacts.
Import Instances.

Abbreviation descending := (StronglySorted (fun a b : Candidate => (score b <= score a)%Q)).

Section Insertion.
Variable before : Candidate -> Candidate -> bool.
Hypothesis before_true : forall c d, before c d = true -> (score d <= score c)%Q.
Hypothesis before_false : forall c d, before c d = false -> (score c <= score d)%Q.

Lemma insert_by_score_perm (c : Candidate) (l : list Candidate) :
  insert_by_score before c l ≡ₚ c :: l.
Proof.
  induction l as [|d l IH]; simpl; [done|].
  destruct (before c d); [done|]. by rewrite IH, Permutation_swap.
Qed.

Lemma insertion_sort_perm (l : list Candidate) : insertion_sort before l ≡ₚ l.
Proof.
  induction l as [|c l IH]; simpl; [done|].
  by rewrite insert_by_score_perm, IH.
Qed.

Lemma insert_by_score_sorted (c : Candidate) (l : list Candidate) :
  descending l -> descending (insert_by_score before c l).
Proof.
  induction 1 as [|d l Hsorted IH Hd]; simpl.
  - by repeat constructor.
  - destruct (before c d) eqn:Hb.
    + constructor; [by constructor|]. constructor; [by apply before_true|].
      eapply Forall_impl; [exact Hd|]. intros x Hx. simpl in Hx.
      eapply Qle_trans; [exact Hx | by apply before_true].
    + constructor; [done|].
      rewrite (insert_by_score_perm c l). constructor; [by apply before_false | done].
Qed.

Lemma insertion_sort_sorted (l : list Candidate) : descending (insertion_sort before l).
Proof.
  induction l as [|c l IH]; simpl; [constructor|]. by apply insert_by_score_sorted.
Qed.

End Insertion.

Lemma before_stable_true (c d : Candidate) :
  before_stable c d = true -> (score d <= score c)%Q.
Proof. apply Qle_bool_imp_le. Qed.

Lemma before_stable_false (c d : Candidate) :
  before_stable c d = false -> (score c <= score d)%Q.
Proof.
  unfold before_stable. intros Hb. destruct (Qlt_le_dec (score c) (score d)) as [Hlt|Hle].
  - by apply Qlt_le_weak.
  - apply Qle_bool_iff in Hle. congruence.
Qed.

Lemma before_strict_true (c d : Candidate) :
  before_strict c d = true -> (score d <= score c)%Q.
Proof.
  unfold before_strict, Std.Qgtb. intros Hb%negb_true_iff.
  destruct (Qlt_le_dec (score d) (score c)) as [Hlt|Hle].
  - by apply Qlt_le_weak.
  - apply Qle_bool_iff in Hle. congruence.
Qed.

Lemma before_strict_false (c d : Candidate) :
  before_strict c d = false -> (score c <= score d)%Q.
Proof.
  unfold before_strict, Std.Qgtb. intros Hb%negb_false_iff. by apply Qle_bool_imp_le.
Qed.

(** The sort that keeps equal scores in their order, as an insertion sort
    does that moves an element only past strictly smaller ones. *)
Definition stable_sort : StdSort := {|
  sort_by_score := insertion_sort before_stable;
  sort_by_score_perm := insertion_sort_perm before_stable;
  sort_by_score_sorted :=
    insertion_sort_sorted before_stable before_stable_true before_stable_false
|}.

(** A sort that fulfils the same contract and returns equal scores in
    reverse order. *)
Definition reversing_sort : StdSort := {|
  sort_by_score := insertion_sort before_strict;
  sort_by_score_perm := insertion_sort_perm before_strict;
  sort_by_score_sorted :=
    insertion_sort_sorted before_strict before_strict_true before_strict_false
|}.

End SortFacts.

(** ** Properties of the candidate store *)

Module DictionaryFacts.
Import Str StrFacts DictionaryManager.

(** The specification's words for the three kinds of match. *)
Definition occurs_in (q s : string) : Prop := exists pre post, s = pre +:+ q +:+ post.


(** No zero byte: the strings SQLite stores as they are. *)
Definition nul_free (s : string) : Prop :=
  Forall (fun c => Std.code c <> 0) (list_ascii_of_string s).

Lemma find_unfold (s needle : string) :
  find s needle
  = if String.prefix needle s then Some 0%nat
    else match s with
         | EmptyString => None
         | String _ s' => option_map S (find s' needle)
         end.
Proof. by destruct s. Qed.

Lemma find_Some_0 (s needle : string) :
  find s needle = Some 0%nat <-> is_prefix_of needle s.
Proof.
  rewrite <- prefix_true, find_unfold. destruct (String.prefix needle s); [done|].
  destruct s as [|c s]; [done|]. by destruct (find s needle).
Qed.



Lemma find_None_not (s needle : string) : find s needle = None -> ~ occurs_in needle s.
Proof.
  induction s as [|c s IH]; rewrite find_unfold.
  - destruct (String.prefix needle EmptyString) eqn:Hp; [done|].
    intros _ (pre & post & Heq). destruct pre; [|discriminate].
    assert (is_prefix_of needle EmptyString) as Hpre by (by exists post).
    apply prefix_true in Hpre. congruence.
  - destruct (String.prefix needle (String c s)) eqn:Hp; [done|].
    destruct (find s needle) as [m|]; [done|].
    intros _ (pre & post & Heq). destruct pre as [|d pre].
    + assert (is_prefix_of needle (String c s)) as Hpre by (by exists post).
      apply prefix_true in Hpre. congruence.
    + injection Heq as _ Heq. apply (IH eq_refl). by exists pre, post.
Qed.


Lemma to_int_id (z : Z) : Std.INT_MIN <= z <= Std.INT_MAX -> Std.to_int z = z.
Proof.
  unfold Std.INT_MIN, Std.INT_MAX, Std.to_int. intros Hz.
  rewrite Z.mod_small; lia.
Qed.

Lemma elem_of_limit {A : Type} (n : Z) (l : list A) (x : A) : x ∈ Sqlite.limit n l -> x ∈ l.
Proof.
  unfold Sqlite.limit. destruct (n <? 0); [done|].
  apply (subseteq_take (Z.to_nat n) l).
Qed.

Lemma elem_of_select (tbl : Sqlite.words) (where_ : string -> string -> bool) (max : Z)
    (r : (string * string) * Sqlite.row) :
  r ∈ Sqlite.select tbl where_ max -> tbl !! r.1 = Some r.2 /\ where_ r.1.1 r.1.2 = true.
Proof.
  unfold Sqlite.select. intros Hr%elem_of_limit.
  rewrite merge_sort_Permutation in Hr. apply list_elem_of_filter in Hr as [Hw Hr].
  split; [|done]. destruct r as [k v]. by apply elem_of_map_to_list.
Qed.

Lemma elem_of_to_candidates (rows : list ((string * string) * Sqlite.row)) (q : string)
    (c : Candidate) :
  c ∈ to_candidates rows q ->
  exists r, r ∈ rows /\ text c = r.1.1 /\ pinyin c = r.1.2
    /\ frequency c = Std.to_int (Sqlite.frequency r.2)
    /\ score c = calculateScore (text c) (pinyin c) (frequency c) q
    /\ is_prediction c = false.
Proof.
  unfold to_candidates. intros (r & -> & Hr)%list_elem_of_fmap. by exists r.
Qed.

(** What a search returns comes from a stored row and is scored against the
    query. *)
Lemma search_result (dm : t) (query : string) (max : Z) (c : Candidate) :
  c ∈ searchByPinyin dm query max \/ c ∈ fuzzySearch dm query max ->
  exists tbl r, db_ dm = Some tbl /\ tbl !! (text c, pinyin c) = Some r
    /\ frequency c = Std.to_int (Sqlite.frequency r)
    /\ score c = calculateScore (text c) (pinyin c) (frequency c) query
    /\ is_prediction c = false.
Proof.
  unfold searchByPinyin, fuzzySearch. destruct (db_ dm) as [tbl|].
  - intros [Hc|Hc]; apply elem_of_to_candidates in Hc as (r & Hr & Ht & Hp & Hf & Hs & Hi);
      apply elem_of_select in Hr as [Hlook _]; exists tbl, r.2;
      (split; [done|]); (split; [by rewrite Ht, Hp, <- surjective_pairing | done]).
  - intros [Hc|Hc]; by apply elem_of_nil in Hc.
Qed.


(** The table [initialize] builds on an empty database file: the ten system
    words, each with frequency 100. *)
Definition system_table : Sqlite.words :=
  fold_left (fun tbl wp => insert_or_ignore wp.1 wp.2 100 tbl) basic_words ∅.

Definition system_store : t := mk "data/dictionary.db" (Some system_table).

Lemma system_store_initialized :
  initialize (Some ∅) (new "data/dictionary.db") = (system_store, true).
Proof. reflexivity. Qed.


(** *** Learning *)

(** The pinyin [learnUserInput] stores is the sequence joined by single
    spaces. *)
Lemma join_loop_S (rest : list string) (i : nat) (acc : string) :
  join_loop (S i) rest acc = acc +:+ concat_all (map (fun p => " " +:+ p) rest).
Proof.
  revert i acc. induction rest as [|p rest IH]; intros i acc; simpl.
  - by rewrite app_empty_r.
  - by rewrite IH, !app_assoc.
Qed.

Lemma concat_space (p : string) (rest : list string) :
  String.concat " " (p :: rest) = p +:+ concat_all (map (fun p => " " +:+ p) rest).
Proof.
  revert p. induction rest as [|q rest IH]; intros p.
  - simpl. by rewrite app_empty_r.
  - change (String.concat " " (p :: q :: rest)) with (p +:+ " " +:+ String.concat " " (q :: rest)).
    rewrite IH. simpl. by rewrite !app_assoc.
Qed.

Lemma join_pinyins_concat (pinyins : list string) :
  join_pinyins pinyins = String.concat " " pinyins.
Proof.
  destruct pinyins as [|p rest]; [done|].
  unfold join_pinyins. cbn [join_loop Nat.ltb Nat.leb]. by rewrite join_loop_S, concat_space.
Qed.

Lemma c_str_nul_free (s : string) : nul_free s -> Std.c_str s = s.
Proof.
  induction s as [|c s IH]; [done|]. intros [Hc Hs]%Forall_cons. simpl.
  destruct (Z.eqb_spec (Std.code c) 0); [done|]. by rewrite IH.
Qed.

Lemma nul_free_app (a b : string) : nul_free a -> nul_free b -> nul_free (a +:+ b).
Proof. unfold nul_free. rewrite bytes_app, Forall_app. by split. Qed.

Lemma nul_free_join (pinyins : list string) :
  Forall nul_free pinyins -> nul_free (String.concat " " pinyins).
Proof.
  destruct pinyins as [|p rest]; [by constructor|].
  intros [Hp Hrest]%Forall_cons. rewrite concat_space. apply nul_free_app; [done|].
  clear p Hp. induction Hrest as [|q rest Hq Hrest IH]; simpl; [by constructor|].
  apply nul_free_app; [|done]. apply nul_free_app; [|done].
  by repeat constructor.
Qed.

(** C5 as the specification words it: a new pair is stored with frequency
    1, an existing pair has its frequency incremented. *)
Definition C5_as_stated (dm : t) (text : string) (pinyin_sequence : list string) : Prop :=
  forall tbl, db_ dm = Some tbl -> text <> EmptyString -> pinyin_sequence <> [] ->
    let key := (text, String.concat " " pinyin_sequence) in
    exists tbl', db_ (learnUserInput dm text pinyin_sequence).1 = Some tbl'
      /\ match tbl !! key with
         | None => tbl' !! key = Some (Sqlite.mkRow 1 true)
         | Some r => exists r', tbl' !! key = Some r'
                               /\ Sqlite.frequency r' = Sqlite.frequency r + 1
         end.

(** C5, amended.  For a non-empty text and a non-empty pinyin sequence (free
    of zero bytes) and an open store, [learnUserInput] succeeds and writes
    the text under the space-joined pinyin as a user word with frequency 1,
    replacing any entry the pair had: an existing frequency is reset to 1,
    not incremented.  No other entry changes. *)
Theorem C5_learnUserInput_replaces (dm : t) (tbl : Sqlite.words) (text : string)
    (pinyin_sequence : list string) :
  db_ dm = Some tbl -> text <> EmptyString -> pinyin_sequence <> [] ->
  nul_free text -> Forall nul_free pinyin_sequence ->
  let key := (text, String.concat " " pinyin_sequence) in
  let result := learnUserInput dm text pinyin_sequence in
  result.2 = true
  /\ db_ result.1 = Some (<[key := Sqlite.mkRow 1 true]> tbl)
  /\ (forall tbl', db_ result.1 = Some tbl' ->
        tbl' !! key = Some (Sqlite.mkRow 1 true)
        /\ forall key', key' <> key -> tbl' !! key' = tbl !! key').
Proof.
  intros Hdb Htext Hseq Hnt Hns key result.
  assert (result = (mk (db_path_ dm) (Some (<[key := Sqlite.mkRow 1 true]> tbl)), true)) as ->.
  { unfold result, learnUserInput, addUserWord.
    destruct text; [done|]. cbn [empty orb]. rewrite bool_decide_eq_false_2 by done.
    rewrite Hdb, join_pinyins_concat.
    by rewrite (c_str_nul_free _ Hnt), (c_str_nul_free _ (nul_free_join _ Hns)). }
  split; [done|]. split; [done|]. intros tbl' [= <-]. split.
  - apply lookup_insert_eq.
  - intros key' Hne. by apply lookup_insert_ne.
Qed.

Lemma C5_learnUserInput_replaces_witness :
  let key := ("你好", String.concat " " ["ni"; "hao"]) in
  let result := learnUserInput system_store "你好" ["ni"; "hao"] in
  result.2 = true
  /\ db_ result.1 = Some (<[key := Sqlite.mkRow 1 true]> system_table)
  /\ (forall tbl', db_ result.1 = Some tbl' ->
        tbl' !! key = Some (Sqlite.mkRow 1 true)
        /\ forall key', key' <> key -> tbl' !! key' = system_table !! key').
Proof.
  apply (C5_learnUserInput_replaces system_store system_table "你好" ["ni"; "hao"]).
  - reflexivity.
  - discriminate.
  - discriminate.
  - unfold nul_free. vm_compute. repeat constructor; discriminate.
  - repeat constructor; discriminate.
Defined.

(** The system entry (你好, ni hao) has frequency 100; after
    [learnUserInput] on the same pair its frequency is 1 and not 101. *)
Lemma C5_counterexample :
  system_table !! ("你好", "ni hao") = Some (Sqlite.mkRow 100 false)
  /\ db_ (learnUserInput system_store "你好" ["ni"; "hao"]).1
     = Some (<[("你好", "ni hao") := Sqlite.mkRow 1 true]> system_table)
  /\ ~ C5_as_stated system_store "你好" ["ni"; "hao"].
Proof.
  assert (system_table !! ("你好", "ni hao") = Some (Sqlite.mkRow 100 false)) as Hold
    by (vm_compute; reflexivity).
  assert (db_ (learnUserInput system_store "你好" ["ni"; "hao"]).1
          = Some (<[("你好", "ni hao") := Sqlite.mkRow 1 true]> system_table)) as Hnew
    by reflexivity.
  split; [done|]. split; [done|]. intros Hclaim.
  destruct (Hclaim system_table) as (tbl' & Htbl' & Hfreq); [reflexivity | done | done |].
  rewrite Hnew in Htbl'. apply (inj Some) in Htbl'. subst tbl'.
  change (String.concat " " ["ni"; "hao"]) with "ni hao" in Hfreq.
  rewrite Hold in Hfreq. destruct Hfreq as (r' & Hr' & Hf).
  rewrite lookup_insert_eq in Hr'. injection Hr' as <-. simpl in Hf. lia.
Qed.

End DictionaryFacts.

(** ** Properties of the prediction engine *)

Module PredictionFacts.
Import PredictionEngine.

Section WithCollaborators.
Context `{StdSort} `{LlamaPredictor}.

(** [initialized_] is false on a fresh engine and after [shutdown]; the only
    assignment of [true] is on the path of [initialize] that returns
    success. *)
Lemma initialized_new (model_path : string) : initialized_ (new model_path) = false.
Proof. done. Qed.

Lemma initialized_shutdown (pe : t) : initialized_ (shutdown pe) = false.
Proof. done. Qed.

Lemma initialize_sets_flag (model_file_good : bool) (pe : t) :
  initialized_ pe = false ->
  initialized_ (initialize model_file_good pe).1 = true ->
  (initialize model_file_good pe).2 = true.
Proof.
  unfold initialize. intros Hpe.
  destruct (Str.empty (model_path_ pe)); [done|].
  destruct (negb model_file_good); [done|].
  destruct (llama_predictor_ pe) as [l|]; [|simpl; congruence].
  destruct (llama_initialize (model_path_ pe) l) as [l' ok].
  destruct ok; simpl; [done | congruence].
Qed.

(** C7 (availability).  [isAvailable] is true only if the flag that a
    successful [initialize] sets is set and the model reports loaded; when
    [isAvailable] is false the three prediction operations return the empty
    list. *)
Theorem C7_unavailable_predicts_nothing (pe : t) :
  (isAvailable pe = true ->
     initialized_ pe = true
     /\ exists l, llama_predictor_ pe = Some l /\ llama_isModelLoaded l = true)
  /\ (forall (model_file_good : bool) (pe0 : t),
        initialized_ pe0 = false ->
        initialized_ (initialize model_file_good pe0).1 = true ->
        (initialize model_file_good pe0).2 = true)
  /\ (isAvailable pe = false ->
      forall (pinyin context partial_text : string) (max : Z),
        predictFromPinyin pe pinyin context max = []
        /\ predictNextWords pe context max = []
        /\ completePartialInput pe partial_text max = []).
Proof.
  split; [|split].
  - unfold isAvailable. intros [Hi Hl]%andb_true_iff. split; [done|].
    destruct (llama_predictor_ pe) as [l|]; [by exists l | done].
  - apply initialize_sets_flag.
  - intros Hav pinyin context partial_text max.
    unfold predictFromPinyin, predictNextWords, completePartialInput. by rewrite Hav.
Qed.

End WithCollaborators.
End PredictionFacts.

(** ** Properties of the engine *)

Module EngineFacts.
Import Str StrFacts Engine SortFacts.

Section WithCollaborators.
Context `{StdSort} `{LlamaPredictor}.

#[local] Arguments merged_candidates : simpl never.
#[local] Arguments PinyinConverter.addChar : simpl never.
#[local] Arguments PinyinConverter.removeLastChar : simpl never.
#[local] Arguments PinyinConverter.clear : simpl never.
#[local] Arguments DictionaryManager.updateWordFrequency : simpl never.
#[local] Arguments Std.to_size_t : simpl never.
#[local] Arguments Std.to_int : simpl never.
#[local] Arguments Std.to_char : simpl never.
#[local] Arguments Std.tolower : simpl never.
#[local] Arguments Std.in_range : simpl never.
#[local] Arguments Std.stoi : simpl never.

(** The buffer of the segmenter, which [updateCandidates] copies into
    [composition_]. *)
Definition buffer (e : t) : string := PinyinConverter.getCurrentPinyin (pinyin_converter_ e).

(** The engine as [updateCandidates] has it when it queries the store. *)
Definition with_buffer (e : t) : t := set_candidates_ [] (set_composition_ (buffer e) e).

(** [resize(max_candidates)] when the list is longer. *)
Definition truncate (max : Z) (l : list Candidate) : list Candidate :=
  if Std.to_size_t max <? Z.of_nat (length l)
  then take (Z.to_nat (Std.to_size_t max)) l else l.

(** The list [updateCandidates] publishes for a non-empty buffer. *)
Definition recomputed (e : t) : list Candidate :=
  truncate (max_candidates (config_ e)) (sort_by_score (merged_candidates (with_buffer e))).

(** The candidate lists handed to the candidates-changed callback. *)
Definition published (ns : list Notification) (l : list Candidate) : Prop :=
  CandidatesChanged l ∈ ns.









(** *** [setState] *)

Lemma state_setState (s : InputState) (e : t) : state_ (setState s e) = s.
Proof.
  unfold setState. case_bool_decide as Hs.
  - by destruct (state_change_callback_ _).
  - destruct (decide (state_ e = s)); [done|]. by destruct Hs.
Qed.

(** [setState] touches the state and the notifications only. *)
Lemma setState_frame (s : InputState) (e : t) :
  config_ (setState s e) = config_ e
  /\ composition_ (setState s e) = composition_ e
  /\ candidates_ (setState s e) = candidates_ e
  /\ pinyin_converter_ (setState s e) = pinyin_converter_ e
  /\ dictionary_manager_ (setState s e) = dictionary_manager_ e
  /\ prediction_engine_ (setState s e) = prediction_engine_ e
  /\ candidate_callback_ (setState s e) = candidate_callback_ e
  /\ commit_callback_ (setState s e) = commit_callback_ e
  /\ state_change_callback_ (setState s e) = state_change_callback_ e.
Proof.
  unfold setState. case_bool_decide; [|done].
  destruct (state_change_callback_ _) eqn:E; simpl in *; rewrite ?E; done.
Qed.



(** *** Publishing, [clearComposition] and [updateCandidates] *)

(** [if (candidate_callback_) candidate_callback_(candidates_)]. *)
Definition publish (e : t) : t :=
  if candidate_callback_ e then notify (CandidatesChanged (candidates_ e)) e else e.

Lemma publish_frame (e : t) :
  config_ (publish e) = config_ e
  /\ state_ (publish e) = state_ e
  /\ composition_ (publish e) = composition_ e
  /\ candidates_ (publish e) = candidates_ e
  /\ pinyin_converter_ (publish e) = pinyin_converter_ e
  /\ dictionary_manager_ (publish e) = dictionary_manager_ e
  /\ prediction_engine_ (publish e) = prediction_engine_ e.
Proof. unfold publish. by destruct (candidate_callback_ e). Qed.


Lemma clearComposition_eq (e : t) :
  clearComposition e
  = publish (setState IDLE
      (set_pinyin_converter_ (PinyinConverter.clear (pinyin_converter_ e))
         (set_candidates_ [] (set_composition_ EmptyString e)))).
Proof. done. Qed.

Lemma clearComposition_result (e : t) :
  state_ (clearComposition e) = IDLE
  /\ composition_ (clearComposition e) = EmptyString
  /\ candidates_ (clearComposition e) = []
  /\ pinyin_converter_ (clearComposition e) = PinyinConverter.clear (pinyin_converter_ e)
  /\ config_ (clearComposition e) = config_ e
  /\ dictionary_manager_ (clearComposition e) = dictionary_manager_ e
  /\ prediction_engine_ (clearComposition e) = prediction_engine_ e.
Proof.
  rewrite clearComposition_eq.
  match goal with |- context [publish ?x] =>
    destruct (publish_frame x) as (-> & -> & -> & -> & -> & -> & ->) end.
  rewrite state_setState.
  match goal with |- context [setState ?s ?x] =>
    destruct (setState_frame s x) as (-> & -> & -> & -> & -> & -> & _) end.
  done.
Qed.


Lemma updateCandidates_eq (e : t) :
  updateCandidates e
  = if empty (buffer e) then publish (setState IDLE (with_buffer e))
    else publish (setState SELECTING (set_candidates_ (recomputed e) (with_buffer e))).
Proof.
  unfold updateCandidates, recomputed, truncate.
  change (composition_ (set_candidates_ [] (set_composition_ _ e))) with (buffer e).
  destruct (empty (buffer e)); [done|]. cbn zeta.
  change (set_candidates_ [] (set_composition_ _ e)) with (with_buffer e).
  cbn [candidates_ config_ set_candidates_].
  by destruct (_ <? _).
Qed.

Lemma updateCandidates_result (e : t) :
  state_ (updateCandidates e) = (if empty (buffer e) then IDLE else SELECTING)
  /\ composition_ (updateCandidates e) = buffer e
  /\ candidates_ (updateCandidates e) = (if empty (buffer e) then [] else recomputed e)
  /\ pinyin_converter_ (updateCandidates e) = pinyin_converter_ e
  /\ config_ (updateCandidates e) = config_ e
  /\ dictionary_manager_ (updateCandidates e) = dictionary_manager_ e
  /\ prediction_engine_ (updateCandidates e) = prediction_engine_ e.
Proof.
  rewrite updateCandidates_eq. destruct (empty (buffer e)).
  - match goal with |- context [publish ?x] =>
      destruct (publish_frame x) as (-> & -> & -> & -> & -> & -> & ->) end.
    rewrite state_setState.
    match goal with |- context [setState ?s ?x] =>
      destruct (setState_frame s x) as (-> & -> & -> & -> & -> & -> & _) end.
    done.
  - match goal with |- context [publish ?x] =>
      destruct (publish_frame x) as (-> & -> & -> & -> & -> & -> & ->) end.
    rewrite state_setState.
    match goal with |- context [setState ?s ?x] =>
      destruct (setState_frame s x) as (-> & -> & -> & -> & -> & -> & _) end.
    done.
Qed.


(** *** Every handler publishes sorted lists only *)







(** *** The state after a key that changes the buffer *)

Lemma in_range_spec (lo hi c : ascii) :
  Std.in_range lo hi c = true <-> Std.code lo <= Std.code c <= Std.code hi.
Proof. unfold Std.in_range. rewrite andb_true_iff, !Z.leb_le. done. Qed.

Definition is_letter (ch : ascii) : bool :=
  Std.in_range "a" "z" ch || Std.in_range "A" "Z" ch.

Lemma is_letter_code (ch : ascii) :
  is_letter ch = true -> 65 <= Std.code ch <= 122.
Proof.
  unfold is_letter. rewrite orb_true_iff, !in_range_spec.
  change (Std.code "a") with 97. change (Std.code "z") with 122.
  change (Std.code "A") with 65. change (Std.code "Z") with 90. lia.
Qed.

Lemma to_char_code (k : Z) : Std.code (Std.to_char k) = k mod 256.
Proof.
  unfold Std.code, Std.to_char. rewrite N_ascii_embedding.
  - apply Z2N.id. apply Z.mod_pos_bound. lia.
  - assert (0 <= k mod 256 < 256) as Hk by (apply Z.mod_pos_bound; lia).
    apply N2Z.inj_lt. rewrite Z2N.id by lia. simpl. lia.
Qed.

Lemma handleKeyPress_letter (event : InputEvent) (e : t) :
  is_letter (Std.to_char (key_code event)) = true ->
  handleKeyPress event e
  = let '(pc, ok) := PinyinConverter.addChar (Std.tolower (Std.to_char (key_code event)))
                       (pinyin_converter_ e) in
    if ok then (setState COMPOSING (updateCandidates (set_pinyin_converter_ pc e)), true)
    else (e, false).
Proof.
  intros Hletter. pose proof (is_letter_code _ Hletter) as Hcode.
  rewrite to_char_code in Hcode. unfold handleKeyPress.
  destruct (Z.eqb_spec (key_code event) 8) as [Hk|_];
    [rewrite Hk in Hcode; change (8 mod 256) with 8 in Hcode; lia|].
  destruct (Z.eqb_spec (key_code event) 27) as [Hk|_];
    [rewrite Hk in Hcode; change (27 mod 256) with 27 in Hcode; lia|].
  destruct (Z.eqb_spec (key_code event) 13) as [Hk|_];
    [rewrite Hk in Hcode; change (13 mod 256) with 13 in Hcode; lia|].
  cbn zeta.
  destruct (Std.in_range "1" "9" _) eqn:Hdigit.
  { apply in_range_spec in Hdigit. rewrite to_char_code in Hdigit.
    change (Std.code "1") with 49 in Hdigit. change (Std.code "9") with 57 in Hdigit. lia. }
  cbn [andb]. fold (is_letter (Std.to_char (key_code event))). by rewrite Hletter.
Qed.

Lemma handleKeyPress_backspace (event : InputEvent) (e : t) :
  key_code event = 8 -> empty (composition_ e) = false ->
  handleKeyPress event e
  = (updateCandidates
       (set_pinyin_converter_ (PinyinConverter.removeLastChar (pinyin_converter_ e)).1 e),
     true).
Proof. intros Hk He. unfold handleKeyPress. by rewrite Hk, He. Qed.

Lemma buffer_removeLastChar (e : t) :
  buffer (set_pinyin_converter_ (PinyinConverter.removeLastChar (pinyin_converter_ e)).1 e)
  = pop_back (buffer e).
Proof.
  unfold buffer, PinyinConverter.getCurrentPinyin, PinyinConverter.removeLastChar.
  cbn [pinyin_converter_ set_pinyin_converter_].
  destruct (PinyinConverter.current_pinyin_ (pinyin_converter_ e)) eqn:E; simpl; by rewrite ?E.
Qed.

(** C3, amended.  The state after a buffer-changing key does not look at the
    candidate list.  After an accepted letter key the state is COMPOSING;
    after a backspace on a non-empty composition it is SELECTING when letters
    remain in the buffer and IDLE when none does.  In both cases the
    composition is the new buffer. *)
Theorem C3_state_after_buffer_change (event : InputEvent) (e : t) :
  type event = KEY_PRESS ->
  let ch := Std.to_char (key_code event) in
  let e' := (processInput event e).1 in
  (is_letter ch = true -> (processInput event e).2 = true ->
   state_ e' = COMPOSING
   /\ buffer e' = push_back (buffer e) (Std.tolower ch)
   /\ composition_ e' = buffer e')
  /\ (key_code event = 8 -> empty (composition_ e) = false ->
      state_ e' = (if empty (buffer e') then IDLE else SELECTING)
      /\ buffer e' = pop_back (buffer e)
      /\ composition_ e' = buffer e').
Proof.
  intros Htype ch e'. unfold e', processInput. rewrite Htype. split.
  - intros Hletter. rewrite (handleKeyPress_letter event e Hletter). fold ch.
    destruct (PinyinConverter.addChar (Std.tolower ch) (pinyin_converter_ e)) as [pc ok] eqn:Hadd.
    destruct ok; [|done]. intros _. cbn [fst].
    rewrite state_setState. split; [done|].
    unfold buffer.
    destruct (setState_frame COMPOSING (updateCandidates (set_pinyin_converter_ pc e)))
      as (_ & -> & _ & -> & _).
    destruct (updateCandidates_result (set_pinyin_converter_ pc e))
      as (_ & -> & _ & -> & _).
    split; [|done]. cbn [pinyin_converter_ set_pinyin_converter_].
    pose proof (PinyinFacts.addChar_accepts (Std.tolower ch) (pinyin_converter_ e)) as Hacc.
    rewrite Hadd in Hacc. cbn [fst snd] in Hacc. destruct (Hacc eq_refl) as [-> _]. done.
  - intros Hk He. rewrite (handleKeyPress_backspace event e Hk He). cbn [fst].
    match goal with |- context [updateCandidates ?x] =>
      destruct (updateCandidates_result x) as (-> & -> & _ & Hpc & _); set (e1 := x) in * end.
    assert (buffer (updateCandidates e1) = buffer e1) as Hb by (unfold buffer; by rewrite Hpc).
    rewrite Hb. split; [done|]. split; [|done]. apply buffer_removeLastChar.
Qed.

(** *** Merging dictionary results and predictions *)

Lemma add_prediction_spec (threshold : Q) (candidates : list Candidate) (p : Candidate) :
  add_prediction threshold candidates p = candidates
  \/ (add_prediction threshold candidates p = candidates ++ [p]
      /\ text p ∉ text <$> candidates).
Proof.
  unfold add_prediction.
  destruct (existsb _ candidates) eqn:Hdup; [by left|].
  destruct (Qle_bool _ _); [|by left]. right. split; [done|].
  intros (c & Htext & Hc)%list_elem_of_fmap.
  assert (existsb (fun existing => String.eqb (text existing) (text p)) candidates = true)
    as Hex; [|congruence].
  apply existsb_exists. exists c. split; [by apply list_elem_of_In|].
  by apply String.eqb_eq.
Qed.

Lemma fold_add_prediction (threshold : Q) (predicted candidates : list Candidate) :
  exists extra,
    fold_left (add_prediction threshold) predicted candidates = candidates ++ extra
    /\ Forall (fun x => text x ∉ text <$> candidates) extra.
Proof.
  revert candidates. induction predicted as [|p predicted IH]; intros candidates.
  - exists []. by rewrite app_nil_r.
  - cbn [fold_left]. destruct (add_prediction_spec threshold candidates p) as [->|[-> Hp]].
    + apply IH.
    + destruct (IH (candidates ++ [p])) as (extra & -> & Hextra).
      exists (p :: extra). split; [by rewrite <- List.app_assoc|].
      constructor; [done|]. eapply Forall_impl; [exact Hextra|].
      intros x Hx Hin. apply Hx. rewrite fmap_app. apply elem_of_app. by left.
Qed.

(** The dictionary results for the buffer of [e]. *)
Definition dictionary_results (e : t) : list Candidate :=
  DictionaryManager.searchByPinyin (dictionary_manager_ e) (buffer e)
    (max_candidates (config_ e)).

(** The predictions [updateCandidates] asks for. *)
Definition predicted (e : t) : list Candidate :=
  match prediction_engine_ e with
  | Some pe =>
      if PredictionEngine.isAvailable pe then
        PredictionEngine.predictFromPinyin pe (buffer e) EmptyString
          (Z.max 1 (max_candidates (config_ e)
                    - Std.to_int (Z.of_nat (length (dictionary_results e)))))
      else []
  | None => []
  end.

Lemma merged_candidates_eq (e : t) :
  merged_candidates (with_buffer e)
  = fold_left (add_prediction (prediction_threshold (config_ e))) (predicted e)
      (dictionary_results e).
Proof.
  unfold merged_candidates, predicted, dictionary_results.
  cbn [with_buffer set_candidates_ set_composition_ dictionary_manager_ composition_ config_
       prediction_engine_ app].
  destruct (prediction_engine_ e) as [pe|]; [|done].
  by destruct (PredictionEngine.isAvailable pe).
Qed.

Lemma merged_candidates_spec (e : t) :
  exists extra,
    merged_candidates (with_buffer e) = dictionary_results e ++ extra
    /\ Forall (fun x => text x ∉ text <$> dictionary_results e) extra.
Proof. rewrite merged_candidates_eq. apply fold_add_prediction. Qed.

Lemma truncate_subseteq (max : Z) (l : list Candidate) : truncate max l ⊆ l.
Proof. unfold truncate. destruct (_ <? _); [apply subseteq_take | done]. Qed.

Lemma truncate_filter_length (P : Candidate -> Prop) `{forall c, Decision (P c)} (max : Z)
    (l : list Candidate) :
  (length (filter P (truncate max l)) <= length (filter P l))%nat.
Proof.
  unfold truncate. destruct (_ <? _); [|done].
  rewrite <- (take_drop (Z.to_nat (Std.to_size_t max)) l) at 2.
  rewrite filter_app, length_app. lia.
Qed.

(** C6, amended.  When the dictionary search returns a candidate with text
    [txt], no prediction with that text enters the list: every candidate with
    text [txt] in the recomputed list is one of the dictionary results, with
    [is_prediction = false], and [txt] occurs in the list at most as often as
    it does among the dictionary results. *)
Theorem C6_merge_keeps_dictionary (e : t) (txt : string) :
  txt ∈ text <$> dictionary_results e ->
  let final := candidates_ (updateCandidates e) in
  (forall c, c ∈ final -> text c = txt ->
     c ∈ dictionary_results e /\ is_prediction c = false)
  /\ (length (filter (fun c => text c = txt) final)
      <= length (filter (fun c => text c = txt) (dictionary_results e)))%nat.
Proof.
  intros Htxt final. unfold final.
  destruct (updateCandidates_result e) as (_ & _ & -> & _).
  destruct (empty (buffer e)).
  { split; [intros c Hc; by apply elem_of_nil in Hc | simpl; lia]. }
  destruct (merged_candidates_spec e) as (extra & Hmerged & Hextra).
  rewrite Forall_forall in Hextra. split.
  - intros c Hc Hct. unfold recomputed in Hc.
    apply truncate_subseteq in Hc. rewrite sort_by_score_perm, Hmerged in Hc.
    apply elem_of_app in Hc as [Hc|Hc].
    + split; [done|].
      destruct (DictionaryFacts.search_result (dictionary_manager_ e) (buffer e)
                  (max_candidates (config_ e)) c (or_introl Hc)) as (_ & _ & _ & _ & _ & _ & Hp).
      done.
    + destruct (Hextra c Hc). by rewrite Hct.
  - unfold recomputed. etrans; [apply truncate_filter_length|].
    rewrite sort_by_score_perm, Hmerged, filter_app, length_app.
    assert (filter (fun c => text c = txt) extra = []) as ->; [|simpl; lia].
    clear Hmerged. induction extra as [|x extra IH]; [done|].
    rewrite filter_cons. destruct (decide (text x = txt)) as [Hx|Hx].
    + destruct (Hextra x); [by left | by rewrite Hx].
    + apply IH. intros y Hy. apply Hextra. by right.
Qed.

(** C6 as the specification words it. *)
Definition C6_as_stated (e : t) (txt : string) : Prop :=
  txt ∈ text <$> dictionary_results e -> txt ∈ text <$> predicted e ->
  let final := candidates_ (updateCandidates e) in
  (length (filter (fun c => text c = txt) final) <= 1)%nat
  /\ forall c, c ∈ final -> text c = txt -> is_prediction c = false.

(** *** Ties *)

#[local] Instance Qeq_decision (x y : Q) : Decision (x == y)%Q := Qeq_dec x y.



(** C3 as the specification words it: [event] is an accepted letter key, or
    a backspace on a buffer of two letters or more. *)
Definition buffer_changing (event : InputEvent) (e : t) : Prop :=
  type event = KEY_PRESS
  /\ ((is_letter (Std.to_char (key_code event)) = true /\ (processInput event e).2 = true)
      \/ (key_code event = 8 /\ (2 <= String.length (composition_ e))%nat)).

Definition C3_as_stated (event : InputEvent) (e : t) : Prop :=
  buffer_changing event e ->
  let e' := (processInput event e).1 in
  (candidates_ e' <> [] -> state_ e' = SELECTING)
  /\ (candidates_ e' = [] -> state_ e' = IDLE).


End WithCollaborators.
End EngineFacts.

(** ** The scenarios of the specification, run *)

Module Scenarios.
Import Str Engine EngineFacts SortFacts Instances.

(** The backspace key. *)
Definition backspace : InputEvent := mkInputEvent KEY_PRESS EmptyString 8.

(** *** With the stable sort and without a model *)

Section Plain.
#[local] Existing Instance stable_sort.
#[local] Existing Instance dummy_llama.

(** An engine with the default configuration and all callbacks set,
    initialized on a database that holds (你好, ni hao, 100); the model file
    is not there, so that no prediction is made. *)
Definition seeded : t :=
  (initialize (Some {[ ("你好", "ni hao") := Sqlite.mkRow 100 false ]}) false
     (new default_config true true true)).1.

Example seeded_idle :
  state_ seeded = IDLE /\ composition_ seeded = EmptyString /\ notifications seeded = [].
Proof. repeat split; vm_compute; reflexivity. Qed.



(** The key n on the seeded engine is accepted and leaves a candidate, yet
    the state is COMPOSING; the backspace on the buffer "ai" leaves the
    buffer "a" and no candidate, yet the state is SELECTING. *)
Lemma C3_counterexample :
  let e1 := (processInput (key "n") seeded).1 in
  let e2 := (processInputs [key "a"; key "i"] seeded).1 in
  let e3 := (processInput backspace e2).1 in
  (text <$> candidates_ e1 = ["你好"] /\ state_ e1 = COMPOSING
   /\ ~ C3_as_stated (key "n") seeded)
  /\ (composition_ e2 = "ai" /\ composition_ e3 = "a" /\ candidates_ e3 = []
      /\ state_ e3 = SELECTING /\ ~ C3_as_stated backspace e2).
Proof.
  intros e1 e2 e3.
  assert (text <$> candidates_ e1 = ["你好"]) as Hc1 by (vm_compute; reflexivity).
  assert (state_ e1 = COMPOSING) as Hs1 by (vm_compute; reflexivity).
  assert (composition_ e2 = "ai") as Hb2 by (vm_compute; reflexivity).
  assert (composition_ e3 = "a") as Hb3 by (vm_compute; reflexivity).
  assert (candidates_ e3 = []) as Hc3 by (vm_compute; reflexivity).
  assert (state_ e3 = SELECTING) as Hs3 by (vm_compute; reflexivity).
  assert ((processInput (key "n") seeded).2 = true) as Hok by (vm_compute; reflexivity).
  split.
  - split; [exact Hc1|]. split; [exact Hs1|]. intros Hclaim.
    destruct Hclaim as [Hne _].
    + split; [reflexivity|]. left. split; [reflexivity | exact Hok].
    + fold e1 in Hne. rewrite Hs1 in Hne. discriminate Hne.
      intros Hnil. rewrite Hnil in Hc1. discriminate Hc1.
  - split; [exact Hb2|]. split; [exact Hb3|]. split; [exact Hc3|]. split; [exact Hs3|].
    intros Hclaim. destruct Hclaim as [_ Hnil].
    + split; [reflexivity|]. right. split; [reflexivity|]. rewrite Hb2. simpl. lia.
    + fold e3 in Hnil. rewrite Hs3 in Hnil. discriminate Hnil. exact Hc3.
Qed.

Lemma C3_state_after_buffer_change_witness :
  type (key "n") = KEY_PRESS
  /\ state_ (processInput (key "n") seeded).1 = COMPOSING
  /\ buffer (processInput (key "n") seeded).1
     = push_back (buffer seeded) (Std.tolower (Std.to_char (key_code (key "n")))).
Proof.
  split; [reflexivity|].
  destruct (C3_state_after_buffer_change (key "n") seeded eq_refl) as [Hletter _].
  destruct Hletter as (Hstate & Hbuffer & _).
  - vm_compute. reflexivity.
  - vm_compute. reflexivity.
  - split; [exact Hstate | exact Hbuffer].
Defined.


(** The store of [C8_counterexample] below under the stable sort: 你, the
    first of the two equal scores before the sort, is published first. *)
Example stable_sort_keeps_ties :
  let e := (processInputs [key "n"; key "i"]
              (initialize
                 (Some {[ ("你", "ni") := Sqlite.mkRow 600 false;
                          ("尼", "ni") := Sqlite.mkRow 500 false ]})
                 false (new default_config true true true)).1).1 in
  (fun c => (text c, score c)) <$> candidates_ (updateCandidates e)
  = [("你", 97%Q); ("尼", 97%Q); ("你好", (440 # 10)%Q)].
Proof. vm_compute. reflexivity. Qed.

End Plain.

(** *** With a sort that reverses equal scores *)

Section Reversing.
#[local] Existing Instance reversing_sort.
#[local] Existing Instance dummy_llama.



End Reversing.

(** *** With a model that answers 了 *)

Section Scripted.
#[local] Existing Instance stable_sort.
#[local] Instance answers_le : LlamaPredictor := scripted_llama "了".

(** The store holds 了 under its two readings "le" and "liao"; the buffer
    is "l". *)
Definition two_readings : t :=
  (processInputs [key "l"]
     (initialize
        (Some {[ ("了", "le") := Sqlite.mkRow 100 false;
                 ("了", "liao") := Sqlite.mkRow 90 false ]})
        true (new default_config true true true)).1).1.

(** Dictionary and predictor both return 了; the merged list holds it
    twice, once for each reading. *)
Lemma C6_counterexample :
  (fun c => (text c, pinyin c)) <$> dictionary_results two_readings
  = [("了", "le"); ("了", "liao")]
  /\ (fun c => (text c, is_prediction c)) <$> predicted two_readings = [("了", true)]
  /\ (fun c => (text c, pinyin c)) <$> candidates_ (updateCandidates two_readings)
     = [("了", "le"); ("了", "liao")]
  /\ ~ C6_as_stated two_readings "了".
Proof.
  assert (text <$> dictionary_results two_readings = ["了"; "了"]) as Hd
    by (vm_compute; reflexivity).
  assert (text <$> predicted two_readings = ["了"]) as Hp by (vm_compute; reflexivity).
  split; [vm_compute; reflexivity|]. split; [vm_compute; reflexivity|].
  split; [vm_compute; reflexivity|].
  intros Hclaim. destruct Hclaim as [Hcount _].
  - rewrite Hd. left.
  - rewrite Hp. left.
  - vm_compute in Hcount. lia.
Qed.

Lemma C6_merge_keeps_dictionary_witness :
  "了" ∈ text <$> dictionary_results two_readings
  /\ (length (filter (fun c => text c = "了") (candidates_ (updateCandidates two_readings)))
      <= length (filter (fun c => text c = "了") (dictionary_results two_readings)))%nat.
Proof.
  assert ("了" ∈ text <$> dictionary_results two_readings) as Hin.
  { replace (text <$> dictionary_results two_readings) with ["了"; "了"]
      by (vm_compute; reflexivity).
    left. }
  split; [exact Hin|].
  exact (proj2 (C6_merge_keeps_dictionary two_readings "了" Hin)).
Defined.

End Scripted.
End Scenarios.

(** ** Further properties of the segmenter *)

Module PinyinExtra.
Import Str StrFacts PinyinConverter PinyinFacts PinyinConverterOps.

#[local] Arguments STANDARD_PINYINS : simpl never.
#[local] Arguments loadPinyinData : simpl never.
#[local] Arguments new : simpl never.

Lemma table_member (s : string) :
  existsb (String.eqb s) STANDARD_PINYINS = true -> s ∈ STANDARD_PINYINS.
Proof.
  intros (s' & Hin & Heq%String.eqb_eq)%existsb_exists. subst s'. by apply list_elem_of_In.
Qed.

Lemma pop_back_push_back (b : string) (ch : ascii) : pop_back (push_back b ch) = b.
Proof. apply bytes_inj. by rewrite bytes_pop_back, bytes_push_back, removelast_last. Qed.

Lemma empty_push_back (b : string) (ch : ascii) : empty (push_back b ch) = false.
Proof. by destruct b. Qed.

Lemma set_current_pinyin_same (pc : t) : set_current_pinyin_ (current_pinyin_ pc) pc = pc.
Proof. by destruct pc. Qed.

(** X1.  A letter that [addChar] accepts is taken back by [removeLastChar]:
    the call succeeds and the converter is as it was before the letter. *)
Theorem X1_addChar_removeLastChar (ch : ascii) (pc : t) :
  (addChar ch pc).2 = true -> removeLastChar (addChar ch pc).1 = (pc, true).
Proof.
  intros Hok. apply addChar_accepts in Hok as [-> _].
  unfold removeLastChar. cbn [current_pinyin_ set_current_pinyin_].
  rewrite empty_push_back, pop_back_push_back.
  by destruct pc.
Qed.

Lemma X1_addChar_removeLastChar_witness :
  let pc := (initialize new).1 in
  current_pinyin_ (removeLastChar (addChar "n" pc).1).1 = current_pinyin_ pc
  /\ (removeLastChar (addChar "n" pc).1).2 = true.
Proof.
  intros pc.
  assert ((addChar "n" pc).2 = true) as Hok by (vm_compute; reflexivity).
  rewrite (X1_addChar_removeLastChar "n" pc Hok). split; reflexivity.
Defined.

(** X2.  [removeLastChar] succeeds exactly when the buffer is not empty.  On
    an empty buffer it changes nothing; otherwise the old buffer is the new
    one followed by one more byte, and nothing else changes. *)
Theorem X2_removeLastChar_spec (pc : t) :
  let r := removeLastChar pc in
  r.2 = negb (empty (current_pinyin_ pc))
  /\ (current_pinyin_ pc = EmptyString -> r.1 = pc)
  /\ (current_pinyin_ pc <> EmptyString ->
      exists ch, current_pinyin_ pc = push_back (current_pinyin_ r.1) ch)
  /\ valid_pinyins_ r.1 = valid_pinyins_ pc
  /\ pinyin_map_ r.1 = pinyin_map_ pc
  /\ valid_chars_ r.1 = valid_chars_ pc.
Proof.
  unfold removeLastChar. destruct (empty (current_pinyin_ pc)) eqn:He; cbn [fst snd negb].
  - apply empty_true in He. repeat split; done.
  - split; [done|]. split; [intros Hb; by rewrite Hb in He|]. split; [|done].
    intros _. cbn [current_pinyin_ set_current_pinyin_].
    destruct (bytes (current_pinyin_ pc)) as [|c l _] eqn:Hb using rev_ind.
    + destruct (current_pinyin_ pc); [done | discriminate].
    + exists c. apply bytes_inj.
      by rewrite bytes_push_back, bytes_pop_back, Hb, removelast_last.
Qed.

(** *** Segmentation finds every cut *)

Lemma fold_left_grows {A B : Type} (f : list A -> B -> list A) (l : list B) (acc : list A)
    (x : A) :
  (forall acc b, x ∈ acc -> x ∈ f acc b) -> x ∈ acc -> x ∈ fold_left f l acc.
Proof.
  intros Hf. revert acc. induction l as [|b l IH]; intros acc Hx; [done|].
  cbn [fold_left]. apply IH. by apply Hf.
Qed.

Lemma segment_grows (fuel : nat) (pc : t) (pinyin : string) (x : list string) :
  forall (start : nat) (current : list string) (results : list (list string)),
    x ∈ results -> x ∈ segmentPinyinRecursive fuel pc pinyin start current results.
Proof.
  induction fuel as [|fuel IH]; intros start current results Hx; [done|].
  cbn [segmentPinyinRecursive]. destruct (_ <=? _)%nat.
  - case_bool_decide; [done|]. apply elem_of_app. by left.
  - apply fold_left_grows; [|done]. intros acc len Hacc.
    destruct (isValidPinyin pc _); [by apply IH | done].
Qed.

Lemma bytes_concat_all_cons (s : string) (l : list string) :
  bytes (concat_all (s :: l)) = bytes s ++ bytes (concat_all l).
Proof. simpl. apply bytes_app. Qed.

Lemma bytes_nil (s : string) : bytes s = [] -> s = EmptyString.
Proof. by destruct s. Qed.

Definition usable (pc : t) (s : string) : Prop :=
  isValidPinyin pc s = true /\ s <> EmptyString.

Lemma segment_complete (pc : t) (pinyin : string) (fuel : nat) :
  forall (start : nat) (current : list string) (results : list (list string))
         (segs : list string),
    (String.length pinyin - start < fuel)%nat ->
    Forall (usable pc) segs ->
    bytes (concat_all segs) = drop start (bytes pinyin) ->
    current ++ segs <> [] ->
    (current ++ segs) ∈ segmentPinyinRecursive fuel pc pinyin start current results.
Proof.
  induction fuel as [|fuel IH]; intros start current results segs Hfuel Hsegs Hcat Hne; [lia|].
  cbn [segmentPinyinRecursive].
  destruct (Nat.leb_spec (String.length pinyin) start) as [Hend|Hmore].
  - rewrite drop_ge in Hcat by (rewrite bytes_length; lia).
    destruct segs as [|s segs].
    + rewrite app_nil_r in *. rewrite bool_decide_eq_false_2 by done.
      apply elem_of_app. right. by left.
    + apply Forall_cons in Hsegs as [[_ Hs] _]. rewrite bytes_concat_all_cons in Hcat.
      apply app_eq_nil in Hcat as [Hcat _]. by apply bytes_nil in Hcat.
  - destruct segs as [|s segs].
    + simpl in Hcat. symmetry in Hcat. apply (f_equal length) in Hcat.
      rewrite length_drop, bytes_length in Hcat. simpl in Hcat. lia.
    + apply Forall_cons in Hsegs as [[Hvalid Hs] Hsegs].
      rewrite bytes_concat_all_cons in Hcat.
      set (len := String.length s).
      assert (1 <= len)%nat as Hlen1.
      { unfold len. destruct s; [done | simpl; lia]. }
      assert (len <= String.length pinyin - start)%nat as Hlen2.
      { apply (f_equal length) in Hcat.
        rewrite length_app, length_drop, !bytes_length in Hcat. unfold len. lia. }
      assert (substr pinyin start len = s) as Hsub.
      { apply bytes_inj. rewrite bytes_substr, <- Hcat. unfold len.
        rewrite <- bytes_length. by rewrite take_app_length. }
      assert (bytes (concat_all segs) = drop (start + len) (bytes pinyin)) as Hrest.
      { rewrite <- drop_drop, <- Hcat. unfold len. rewrite <- bytes_length.
        by rewrite drop_app_length. }
      assert (len ∈ seq 1 (String.length pinyin - start)) as Hin.
      { apply list_elem_of_In, in_seq. lia. }
      apply list_elem_of_split in Hin as (l1 & l2 & ->).
      rewrite fold_left_app. cbn [fold_left]. rewrite Hsub, Hvalid.
      apply fold_left_grows.
      * intros acc len' Hacc.
        destruct (isValidPinyin pc (substr pinyin start len')); [by apply segment_grows | done].
      * replace (current ++ s :: segs) with ((current ++ [s]) ++ segs)
          by (by rewrite <- List.app_assoc).
        apply IH; [lia | done | done |]. by destruct current.
Qed.

Lemma table_entries_nonempty : forallb (fun s => negb (empty s)) STANDARD_PINYINS = true.
Proof. vm_compute. reflexivity. Qed.

Lemma table_entry_nonempty (s : string) : s ∈ STANDARD_PINYINS -> s <> EmptyString.
Proof.
  intros Hin%list_elem_of_In Hs.
  pose proof (proj1 (forallb_forall _ _) table_entries_nonempty s Hin) as Hne.
  by rewrite Hs in Hne.
Qed.

(** X3.  Segmentation is exhaustive: on an initialized converter, every
    non-empty sequence of table syllables whose concatenation is the buffer
    is among the results of [getPinyinSegments]. *)
Theorem X3_segments_complete (ops : list op) (seg : list string) :
  let pc := run_ops ops (initialize new).1 in
  seg <> [] -> Forall (fun s => s ∈ STANDARD_PINYINS) seg ->
  concat_all seg = current_pinyin_ pc ->
  seg ∈ getPinyinSegments pc.
Proof.
  intros pc Hne Hseg Hcat.
  assert (loaded pc) as Hld by (apply loaded_run_ops, inv_initialize, inv_new).
  assert (Forall (usable pc) seg) as Husable.
  { eapply Forall_impl; [exact Hseg|]. intros s Hs. split.
    - by apply (isValidPinyin_loaded pc s Hld).
    - by apply table_entry_nonempty. }
  unfold getPinyinSegments. destruct (empty (current_pinyin_ pc)) eqn:He.
  - apply empty_true in He. rewrite He in Hcat. destruct seg as [|s seg]; [done|].
    apply Forall_cons in Husable as [[_ Hs] _].
    apply (f_equal bytes) in Hcat. rewrite bytes_concat_all_cons in Hcat.
    apply app_eq_nil in Hcat as [Hcat _]. by apply bytes_nil in Hcat.
  - apply (segment_complete pc (current_pinyin_ pc) _ 0 [] [] seg); [lia | done | | done].
    by rewrite drop_0, Hcat.
Qed.

Lemma X3_segments_complete_witness :
  let ops := [OpAddChar "x"; OpAddChar "i"; OpAddChar "a"; OpAddChar "n"]%char in
  ["xi"; "an"] ∈ getPinyinSegments (run_ops ops (initialize new).1).
Proof.
  intros ops. apply (X3_segments_complete ops ["xi"; "an"]).
  - discriminate.
  - repeat constructor; apply table_member; vm_compute; reflexivity.
  - vm_compute. reflexivity.
Defined.

(** *** Prefix lookup *)

Lemma filter_all {A : Type} (P : A -> Prop) `{forall x, Decision (P x)} (l : list A) :
  Forall P l -> filter P l = l.
Proof.
  induction 1 as [|x l Hx Hl IH]; [done|]. rewrite filter_cons, decide_True by done.
  by rewrite IH.
Qed.

Lemma addChar_true_iff (ch : ascii) (pc : t) :
  (addChar ch pc).2 = true
  <-> is_Some (valid_chars_ pc !! ch)
      /\ existsb (fun pinyin => starts_with pinyin (push_back (current_pinyin_ pc) ch))
           (valid_pinyins_ pc) = true.
Proof.
  unfold addChar. destruct (valid_chars_ pc !! ch) as [b|].
  - destruct (existsb _ _); split; try done; by intros [_ ?].
  - split; [done|]. intros [[b Hb] _]. done.
Qed.

(** X4.  On an initialized converter [getPinyinPrefixes(s)] is the list of
    the table entries that start with [s], so the whole table for the empty
    string; and [addChar(ch)] succeeds exactly when
    [getPinyinPrefixes(buffer + ch)] is not empty. *)
Theorem X4_getPinyinPrefixes (ops : list op) (s : string) :
  let pc := run_ops ops (initialize new).1 in
  (forall s', s' ∈ getPinyinPrefixes pc s <-> s' ∈ STANDARD_PINYINS /\ is_prefix_of s s')
  /\ getPinyinPrefixes pc EmptyString = STANDARD_PINYINS
  /\ (forall ch, (addChar ch pc).2 = true
                 <-> getPinyinPrefixes pc (push_back (current_pinyin_ pc) ch) <> []).
Proof.
  intros pc.
  assert (inv pc) as Hinv by (apply inv_run_ops, inv_initialize, inv_new).
  assert (loaded pc) as [Hv Hm] by (apply loaded_run_ops, inv_initialize, inv_new).
  unfold getPinyinPrefixes. rewrite Hv. split; [|split].
  - intros s'. rewrite list_elem_of_filter, starts_with_true. tauto.
  - apply filter_all. apply Forall_forall. intros syl _. apply starts_with_true.
    by exists syl.
  - intros ch. rewrite addChar_true_iff, Hv. split.
    + intros [_ Hex]. apply existsb_exists in Hex as (syl & Hin & Hs).
      intros Hnil. assert (syl ∈ @nil string) as Hsyl; [|by apply elem_of_nil in Hsyl].
      rewrite <- Hnil. apply list_elem_of_filter. split; [done | by apply list_elem_of_In].
    + intros Hne.
      destruct (filter _ STANDARD_PINYINS) as [|syl l] eqn:Hf; [done|].
      assert (syl ∈ syl :: l) as Hsyl by left. rewrite <- Hf in Hsyl.
      apply list_elem_of_filter in Hsyl as [Hs Hin]. split.
      * rewrite (inv_chars _ Hinv).
        apply (table_letters_valid (current_pinyin_ pc) ch syl Hin).
        by apply starts_with_true.
      * apply existsb_exists. exists syl. split; [by apply list_elem_of_In | done].
Qed.

(** *** Typing a syllable *)

(** [addChar] for each byte of [s] in turn; the boolean tells whether every
    call succeeded. *)
Definition add_step (st : t * bool) (ch : ascii) : t * bool :=
  let r := addChar ch st.1 in (r.1, st.2 && r.2).

Definition addChars (s : string) (pc : t) : t * bool :=
  fold_left add_step (bytes s) (pc, true).

Lemma addChars_prefix (syl : string) (l : list ascii) :
  forall (pc : t),
    syl ∈ STANDARD_PINYINS ->
    valid_chars_ pc = valid_chars_ new -> valid_pinyins_ pc = STANDARD_PINYINS ->
    is_prefix_of (current_pinyin_ pc +:+ string_of_list_ascii l) syl ->
    fold_left add_step l (pc, true)
    = (set_current_pinyin_ (current_pinyin_ pc +:+ string_of_list_ascii l) pc, true).
Proof.
  induction l as [|ch l IH]; intros pc Hsyl Hc Hv Hp.
  - cbn [fold_left string_of_list_ascii]. rewrite app_empty_r. by rewrite set_current_pinyin_same.
  - cbn [fold_left string_of_list_ascii]. cbn [string_of_list_ascii] in Hp.
    assert (current_pinyin_ pc +:+ String ch (string_of_list_ascii l)
            = push_back (current_pinyin_ pc) ch +:+ string_of_list_ascii l) as Heq.
    { unfold push_back. by rewrite app_assoc. }
    rewrite Heq in *.
    assert (is_prefix_of (push_back (current_pinyin_ pc) ch) syl) as Hp1.
    { destruct Hp as [rest ->]. exists (string_of_list_ascii l +:+ rest). by rewrite app_assoc. }
    assert ((addChar ch pc).2 = true) as Hok.
    { apply addChar_true_iff. split.
      - rewrite Hc. by apply (table_letters_valid (current_pinyin_ pc) ch syl).
      - rewrite Hv. apply existsb_exists. exists syl.
        split; [by apply list_elem_of_In | by apply starts_with_true]. }
    destruct (addChar_accepts ch pc Hok) as [Hst _].
    unfold add_step at 2. cbn [fst snd]. rewrite Hok, Hst. cbn [andb].
    rewrite (IH (set_current_pinyin_ (push_back (current_pinyin_ pc) ch) pc)); try done.
Qed.

(** X5.  Every syllable of the table can be typed: starting from an empty
    buffer on an initialized converter, [addChar] accepts each of its
    letters in turn and the buffer ends as the syllable. *)
Theorem X5_syllable_typable (ops : list op) (syl : string) :
  let pc := clear (run_ops ops (initialize new).1) in
  syl ∈ STANDARD_PINYINS ->
  addChars syl pc = (set_current_pinyin_ syl pc, true).
Proof.
  intros pc Hsyl.
  assert (inv (run_ops ops (initialize new).1)) as Hinv
    by (apply inv_run_ops, inv_initialize, inv_new).
  assert (loaded (run_ops ops (initialize new).1)) as [Hv Hm]
    by (apply loaded_run_ops, inv_initialize, inv_new).
  unfold addChars. rewrite (addChars_prefix syl (bytes syl) pc Hsyl).
  - cbn [pc clear current_pinyin_ set_current_pinyin_].
    by rewrite string_of_list_ascii_of_string.
  - exact (inv_chars _ Hinv).
  - exact Hv.
  - cbn [pc clear current_pinyin_ set_current_pinyin_].
    rewrite string_of_list_ascii_of_string. apply is_prefix_of_refl.
Qed.

Lemma X5_syllable_typable_witness :
  current_pinyin_ (addChars "zhuang" (clear (initialize new).1)).1 = "zhuang"
  /\ (addChars "zhuang" (clear (initialize new).1)).2 = true.
Proof.
  assert ("zhuang" ∈ STANDARD_PINYINS) as Hin
    by (apply table_member; vm_compute; reflexivity).
  change (clear (initialize new).1) with (clear (run_ops [] (initialize new).1)).
  rewrite (X5_syllable_typable [] "zhuang" Hin). split; reflexivity.
Defined.

(** *** Normalization *)

Definition is_lower (c : ascii) : bool := Std.in_range "a" "z" c.

Lemma tolower_isalpha (c : ascii) :
  Std.isalpha (Std.tolower c) = true -> is_lower (Std.tolower c) = true.
Proof. destruct c as [[] [] [] [] [] [] [] []]; vm_compute; tauto. Qed.

Lemma tolower_lower (c : ascii) :
  is_lower c = true -> Std.tolower c = c /\ Std.isalpha c = true.
Proof. destruct c as [[] [] [] [] [] [] [] []]; vm_compute; (discriminate || tauto). Qed.

Lemma normalize_bytes (s : string) :
  bytes (normalizePinyin s)
  = filter (fun c => Std.isalpha c = true) (map Std.tolower (bytes s)).
Proof. unfold normalizePinyin. apply list_ascii_of_string_of_list_ascii. Qed.

Lemma normalize_lower (s : string) :
  Forall (fun c => is_lower c = true) (bytes (normalizePinyin s)).
Proof.
  rewrite normalize_bytes. apply Forall_forall. intros c [Hc Hin]%list_elem_of_filter.
  apply list_elem_of_fmap in Hin as (d & -> & _). by apply tolower_isalpha.
Qed.

Lemma normalize_fixed (s : string) :
  Forall (fun c => is_lower c = true) (bytes s) -> normalizePinyin s = s.
Proof.
  intros Hs. apply bytes_inj. rewrite normalize_bytes.
  induction Hs as [|c l Hc Hl IH]; [done|].
  destruct (tolower_lower c Hc) as [Ht Ha].
  cbn [map]. rewrite Ht, filter_cons, decide_True by done. by rewrite IH.
Qed.

(** X6.  [normalizePinyin] returns lowercase ASCII letters only, keeps a
    string of lowercase letters as it is, so that normalizing twice is
    normalizing once, and keeps every syllable of the table. *)
Theorem X6_normalizePinyin (s : string) :
  Forall (fun c => Std.in_range "a" "z" c = true) (bytes (normalizePinyin s))
  /\ normalizePinyin (normalizePinyin s) = normalizePinyin s
  /\ (forall syl, syl ∈ STANDARD_PINYINS -> normalizePinyin syl = syl)
  /\ (String.length (normalizePinyin s) <= String.length s)%nat.
Proof.
  split; [apply normalize_lower|]. split; [apply normalize_fixed, normalize_lower|]. split.
  - intros syl Hsyl. apply normalize_fixed.
    apply table_entry_ok in Hsyl. apply andb_true_iff in Hsyl as [_ Hall].
    rewrite forallb_forall in Hall. apply Forall_forall. intros c Hc%list_elem_of_In.
    specialize (Hall c Hc). apply bool_decide_eq_true in Hall.
    destruct c as [[] [] [] [] [] [] [] []]; vm_compute in Hall |- *;
      (reflexivity || (destruct Hall as [? Hall]; discriminate Hall)).
  - rewrite <- !bytes_length, normalize_bytes.
    etrans; [apply length_filter|]. by rewrite length_map.
Qed.

End PinyinExtra.

(** ** Further properties of the candidate store *)

Module DictionaryExtra.
Import Str StrFacts DictionaryManager DictionaryFacts DictionaryManagerOps.

(** *** The score *)

(** The three terms of [calculateScore]. *)
Definition frequency_term (frequency : Z) : Q := Qmin 50 (inject_Z frequency / 10).

Definition length_term (word : string) : Q :=
  Qmax 0 (20 - inject_Z (Z.of_nat (String.length word))).

Definition bonus_term (word_pinyin input_pinyin : string) : Q :=
  if String.eqb word_pinyin input_pinyin then 30
  else match find word_pinyin input_pinyin with
       | Some O => 20
       | Some _ => 10
       | None => 0
       end.

Lemma calculateScore_terms (word word_pinyin : string) (frequency : Z) (input_pinyin : string) :
  (calculateScore word word_pinyin frequency input_pinyin
   == frequency_term frequency + length_term word + bonus_term word_pinyin input_pinyin)%Q.
Proof.
  unfold calculateScore, frequency_term, length_term, bonus_term.
  destruct (String.eqb _ _); [ring|]. destruct (find _ _) as [[|n]|]; ring.
Qed.

Lemma tenth_le (f1 f2 : Z) : f1 <= f2 -> (inject_Z f1 / 10 <= inject_Z f2 / 10)%Q.
Proof. intros Hf. unfold Qle, Qdiv, Qmult, Qinv, inject_Z. simpl. lia. Qed.

Lemma frequency_term_le (f1 f2 : Z) : f1 <= f2 -> (frequency_term f1 <= frequency_term f2)%Q.
Proof. intros Hf. apply Q.min_le_compat_l. by apply tenth_le. Qed.

Lemma frequency_term_cap (f : Z) : 500 <= f -> (frequency_term f == 50)%Q.
Proof.
  intros Hf. apply Q.min_l. unfold Qle, Qdiv, Qmult, Qinv, inject_Z. simpl. lia.
Qed.

Lemma length_term_range (word : string) : (0 <= length_term word <= 20)%Q.
Proof.
  unfold length_term. split; [apply Q.le_max_l|]. apply Q.max_lub; [done|].
  unfold Qle, Qminus, Qplus, Qopp, inject_Z. simpl. lia.
Qed.

Lemma bonus_term_range (p q : string) : (0 <= bonus_term p q <= 30)%Q.
Proof.
  unfold bonus_term. destruct (String.eqb _ _); [done|].
  destruct (find _ _) as [[|n]|]; done.
Qed.

(** X7.  The score does not decrease when the frequency grows, no longer
    changes once the frequency has reached 500, and lies between 0 and 100
    for a non-negative frequency. *)
Theorem X7_calculateScore_frequency (word word_pinyin input_pinyin : string) (f1 f2 : Z) :
  f1 <= f2 ->
  (calculateScore word word_pinyin f1 input_pinyin
   <= calculateScore word word_pinyin f2 input_pinyin)%Q
  /\ (500 <= f1 -> (calculateScore word word_pinyin f1 input_pinyin
                    == calculateScore word word_pinyin f2 input_pinyin)%Q)
  /\ (0 <= f1 -> (0 <= calculateScore word word_pinyin f1 input_pinyin <= 100)%Q).
Proof.
  intros Hf. rewrite !calculateScore_terms. split; [|split].
  - apply Qplus_le_compat; [|apply Qle_refl].
    apply Qplus_le_compat; [by apply frequency_term_le | apply Qle_refl].
  - intros H500. rewrite !frequency_term_cap by lia. reflexivity.
  - intros H0. pose proof (length_term_range word) as [Hl0 Hl20].
    pose proof (bonus_term_range word_pinyin input_pinyin) as [Hb0 Hb30].
    assert (0 <= frequency_term f1 <= 50)%Q as [Hf0 Hf50].
    { split; [|apply Q.le_min_l]. apply Q.min_glb; [done|].
      unfold Qle, Qdiv, Qmult, Qinv, inject_Z. simpl. lia. }
    split.
    + apply (Qle_trans _ (0 + 0 + 0)); [done|]. by repeat apply Qplus_le_compat.
    + apply (Qle_trans _ (50 + 20 + 30)); [|done]. by repeat apply Qplus_le_compat.
Qed.

Lemma X7_calculateScore_frequency_witness :
  (calculateScore "你好" "ni hao" 100 "ni" <= calculateScore "你好" "ni hao" 101 "ni")%Q.
Proof.
  assert (100 <= 101) as Hf by lia.
  exact (proj1 (X7_calculateScore_frequency "你好" "ni hao" "ni" 100 101 Hf)).
Defined.

(** *** Updating, adding and removing *)

(** The key a word and a pinyin are stored under. *)
Definition key_of (word word_pinyin : string) : string * string :=
  (Std.c_str word, Std.c_str word_pinyin).

Definition bump (r : Sqlite.row) : Sqlite.row :=
  Sqlite.mkRow (Sqlite.frequency r + 1) (Sqlite.is_user_word r).

Lemma updateWordFrequency_db (dm : t) (tbl : Sqlite.words) (word word_pinyin : string) :
  db_ dm = Some tbl ->
  updateWordFrequency dm word word_pinyin
  = (mk (db_path_ dm) (Some (alter bump (key_of word word_pinyin) tbl)), true).
Proof. intros Hdb. unfold updateWordFrequency. by rewrite Hdb. Qed.

(** [updateWordFrequency(word, pinyin)] called [n] times in a row. *)
Fixpoint updateWordFrequency_times (n : nat) (dm : t) (word word_pinyin : string) : t :=
  match n with
  | O => dm
  | S n => (updateWordFrequency (updateWordFrequency_times n dm word word_pinyin)
              word word_pinyin).1
  end.

(** X8.  [updateWordFrequency] called [n] times on a stored pair adds
    exactly [n] to its frequency and changes nothing else in the table: no
    row is added, the user-word flag and the other rows stay.  On a pair that
    is not stored it reports success and leaves the store as it is. *)
Theorem X8_updateWordFrequency_times (dm : t) (tbl : Sqlite.words)
    (word word_pinyin : string) (n : nat) :
  db_ dm = Some tbl ->
  let key := key_of word word_pinyin in
  let dm' := updateWordFrequency_times n dm word word_pinyin in
  (forall r, tbl !! key = Some r ->
     db_ dm'
     = Some (<[key := Sqlite.mkRow (Sqlite.frequency r + Z.of_nat n) (Sqlite.is_user_word r)]>
               tbl))
  /\ (tbl !! key = None -> updateWordFrequency dm word word_pinyin = (dm, true)).
Proof.
  intros Hdb key dm'. split.
  - intros r Hr. unfold dm'. clear dm'. induction n as [|n IH].
    + cbn [updateWordFrequency_times]. rewrite Hdb. f_equal. symmetry. apply insert_id.
      rewrite Hr. f_equal. destruct r. simpl. f_equal. lia.
    + cbn [updateWordFrequency_times]. rewrite (updateWordFrequency_db _ _ _ _ IH).
      cbn [fst db_].
      f_equal. fold key. rewrite alter_insert_eq. unfold bump. cbn [Sqlite.frequency
        Sqlite.is_user_word]. do 2 f_equal. lia.
  - intros Hnone. rewrite (updateWordFrequency_db _ _ _ _ Hdb). fold key.
    rewrite alter_id by (intros r Hr; congruence). destruct dm. simpl in Hdb. by rewrite Hdb.
Qed.

Lemma X8_updateWordFrequency_times_witness :
  let dm' := updateWordFrequency_times 3 system_store "你好" "ni hao" in
  exists tbl, db_ dm' = Some tbl
              /\ tbl !! ("你好", "ni hao") = Some (Sqlite.mkRow 103 false).
Proof.
  intros dm'.
  destruct (X8_updateWordFrequency_times system_store system_table "你好" "ni hao" 3 eq_refl)
    as [Hfreq _].
  specialize (Hfreq (Sqlite.mkRow 100 false)).
  eexists. split.
  - apply Hfreq. vm_compute. reflexivity.
  - apply lookup_insert_eq.
Defined.

(** X9.  A word added with [addUserWord] is gone after [removeUserWord] on
    the same pair, whatever the table held under that key before; a second
    [removeUserWord] succeeds and changes nothing. *)
Theorem X9_addUserWord_removeUserWord (dm : t) (tbl : Sqlite.words)
    (word word_pinyin : string) (frequency : Z) :
  db_ dm = Some tbl ->
  let key := key_of word word_pinyin in
  let dm1 := (addUserWord dm word word_pinyin frequency).1 in
  let dm2 := (removeUserWord dm1 word word_pinyin).1 in
  db_ dm1 = Some (<[key := Sqlite.mkRow frequency true]> tbl)
  /\ (removeUserWord dm1 word word_pinyin).2 = true
  /\ db_ dm2 = Some (delete key tbl)
  /\ removeUserWord dm2 word word_pinyin = (dm2, true).
Proof.
  intros Hdb key dm1 dm2.
  assert (dm1 = mk (db_path_ dm) (Some (<[key := Sqlite.mkRow frequency true]> tbl))) as H1.
  { unfold dm1, addUserWord. by rewrite Hdb. }
  assert (dm2 = mk (db_path_ dm) (Some (delete key tbl))) as H2.
  { unfold dm2, removeUserWord. rewrite H1. cbn [db_ db_path_ fst]. fold key.
    rewrite lookup_insert_eq. cbn [Sqlite.is_user_word]. by rewrite delete_insert_eq. }
  split; [by rewrite H1|]. split; [by rewrite H1|]. split; [by rewrite H2|].
  rewrite H2. unfold removeUserWord. cbn [db_ db_path_]. fold key.
  by rewrite lookup_delete_eq.
Qed.

Lemma X9_addUserWord_removeUserWord_witness :
  let dm1 := (addUserWord system_store "测试" "ce shi" 1).1 in
  let dm2 := (removeUserWord dm1 "测试" "ce shi").1 in
  db_ dm2 = Some (delete (key_of "测试" "ce shi") system_table)
  /\ removeUserWord dm2 "测试" "ce shi" = (dm2, true).
Proof.
  intros dm1 dm2.
  destruct (X9_addUserWord_removeUserWord system_store system_table "测试" "ce shi" 1 eq_refl)
    as (_ & _ & Hdb & Hagain).
  split; [exact Hdb | exact Hagain].
Defined.

(** X10.  [removeUserWord] deletes a row only if it is a user word: it
    always reports success on an open store, a system entry or a missing
    pair leaves the table unchanged, and no row under another key is ever
    touched. *)
Theorem X10_removeUserWord_gate (dm : t) (tbl : Sqlite.words) (word word_pinyin : string) :
  db_ dm = Some tbl ->
  let key := key_of word word_pinyin in
  let result := removeUserWord dm word word_pinyin in
  result.2 = true
  /\ exists tbl', db_ result.1 = Some tbl'
       /\ (forall key', key' <> key -> tbl' !! key' = tbl !! key')
       /\ tbl' !! key
          = match tbl !! key with
            | Some r => if Sqlite.is_user_word r then None else Some r
            | None => None
            end.
Proof.
  intros Hdb key result. unfold result, removeUserWord. rewrite Hdb.
  change (Std.c_str word, Std.c_str word_pinyin) with key.
  cbn [fst snd db_]. split; [done|].
  destruct (tbl !! key) as [r|] eqn:Hr.
  - destruct (Sqlite.is_user_word r).
    + exists (delete key tbl). split; [done|].
      split; [intros key' Hne; by apply lookup_delete_ne | apply lookup_delete_eq].
    + exists tbl. by split.
  - exists tbl. by split.
Qed.

Lemma X10_removeUserWord_gate_witness :
  exists tbl', db_ (removeUserWord system_store "你好" "ni hao").1 = Some tbl'
    /\ tbl' !! ("你好", "ni hao") = Some (Sqlite.mkRow 100 false).
Proof.
  destruct (X10_removeUserWord_gate system_store system_table "你好" "ni hao" eq_refl)
    as (_ & tbl' & Hdb & _ & Hkey).
  exists tbl'. split; [exact Hdb|].
  change (tbl' !! key_of "你好" "ni hao" = Some (Sqlite.mkRow 100 false)). rewrite Hkey.
  replace (system_table !! key_of "你好" "ni hao") with (Some (Sqlite.mkRow 100 false))
    by (vm_compute; reflexivity).
  reflexivity.
Defined.

(** *** Seeding *)

Definition seed (ws : list (string * string)) (tbl : Sqlite.words) : Sqlite.words :=
  fold_left (fun tbl wp => insert_or_ignore wp.1 wp.2 100 tbl) ws tbl.

Lemma insert_or_ignore_lookup (w p : string) (f : Z) (tbl : Sqlite.words)
    (k : string * string) :
  insert_or_ignore w p f tbl !! k
  = match tbl !! k with
    | Some row => Some row
    | None => if decide (k = key_of w p) then Some (Sqlite.mkRow f false) else None
    end.
Proof.
  unfold insert_or_ignore. change (Std.c_str w, Std.c_str p) with (key_of w p).
  destruct (tbl !! key_of w p) as [row|] eqn:Hrow.
  - destruct (tbl !! k) eqn:Hk; [done|]. destruct (decide (k = key_of w p)); [congruence|done].
  - destruct (decide (k = key_of w p)) as [->|Hne].
    + by rewrite lookup_insert_eq, Hrow.
    + rewrite lookup_insert_ne by done. by destruct (tbl !! k).
Qed.

Lemma seed_spec (ws : list (string * string)) :
  forall (tbl : Sqlite.words) (k : string * string),
    seed ws tbl !! k
    = match tbl !! k with
      | Some row => Some row
      | None => if decide (k ∈ (fun wp => key_of wp.1 wp.2) <$> ws)
                then Some (Sqlite.mkRow 100 false) else None
      end.
Proof.
  induction ws as [|wp ws IH]; intros tbl k.
  - cbn. destruct (tbl !! k); [done|]. rewrite decide_False; [done|]. apply not_elem_of_nil.
  - cbn [seed fold_left]. fold (seed ws (insert_or_ignore wp.1 wp.2 100 tbl)).
    rewrite IH, insert_or_ignore_lookup. destruct (tbl !! k) as [row|]; [done|].
    rewrite fmap_cons. destruct (decide (k = key_of wp.1 wp.2)) as [->|Hne].
    + rewrite decide_True; [done|]. left.
    + destruct (decide (k ∈ _ <$> ws)) as [Hin|Hnin].
      * rewrite decide_True; [done|]. by right.
      * rewrite decide_False; [done|]. intros [?|?]%elem_of_cons; done.
Qed.

Lemma basic_words_keys : (fun wp => key_of wp.1 wp.2) <$> basic_words = basic_words.
Proof. vm_compute. reflexivity. Qed.

(** X11.  [initialize] fails when the database cannot be opened.  Otherwise
    it succeeds and seeds with INSERT OR IGNORE: every row already in the
    database stays as it is, each of the ten basic words is present
    afterwards, and a row that was not there before is a basic word with
    frequency 100 that is not a user word.  On a database that already holds
    the basic words nothing changes. *)
Theorem X11_initialize_seeds (disk : Sqlite.words) (dm : t) :
  initialize None dm = (dm, false)
  /\ (initialize (Some disk) dm).2 = true
  /\ exists tbl, db_ (initialize (Some disk) dm).1 = Some tbl
       /\ (forall k row, disk !! k = Some row -> tbl !! k = Some row)
       /\ (forall wp, wp ∈ basic_words -> is_Some (tbl !! wp))
       /\ (forall k row, tbl !! k = Some row -> disk !! k = None ->
             k ∈ basic_words /\ row = Sqlite.mkRow 100 false)
       /\ ((forall wp, wp ∈ basic_words -> is_Some (disk !! wp)) -> tbl = disk).
Proof.
  split; [done|]. split; [done|]. exists (seed basic_words disk).
  split; [done|].
  assert (forall k, seed basic_words disk !! k
                    = match disk !! k with
                      | Some row => Some row
                      | None => if decide (k ∈ basic_words)
                                then Some (Sqlite.mkRow 100 false) else None
                      end) as Hspec.
  { intros k. rewrite seed_spec. by rewrite basic_words_keys. }
  split; [|split; [|split]].
  - intros k row Hk. by rewrite Hspec, Hk.
  - intros wp Hwp. rewrite Hspec. destruct (disk !! wp); [done|].
    by rewrite decide_True.
  - intros k row Hk Hnone. rewrite Hspec, Hnone in Hk.
    destruct (decide (k ∈ basic_words)); [|done]. split; [done | congruence].
  - intros Hall. apply map_eq. intros k. rewrite Hspec.
    destruct (disk !! k) eqn:Hk; [done|].
    destruct (decide (k ∈ basic_words)) as [Hin|]; [|done].
    destruct (Hall k Hin) as [row Hrow]. congruence.
Qed.

(** *** The result list of a search *)

Lemma limit_length {A : Type} (max : Z) (l : list A) :
  0 <= max -> Z.of_nat (length (Sqlite.limit max l)) <= max.
Proof.
  intros Hmax. unfold Sqlite.limit. destruct (Z.ltb_spec max 0); [lia|].
  rewrite length_take. lia.
Qed.

(** X12.  With a bound [max >= 0] a search returns at most [max]
    candidates, both by prefix and fuzzy; with a closed store it returns
    none. *)
Theorem X12_search_bound (dm : t) (query : string) (max : Z) :
  0 <= max ->
  Z.of_nat (length (searchByPinyin dm query max)) <= max
  /\ Z.of_nat (length (fuzzySearch dm query max)) <= max
  /\ (db_ dm = None -> searchByPinyin dm query max = [] /\ fuzzySearch dm query max = []).
Proof.
  intros Hmax. unfold searchByPinyin, fuzzySearch, to_candidates, Sqlite.select.
  destruct (db_ dm) as [tbl|]; [|simpl; repeat split; lia].
  rewrite !length_map. split; [by apply limit_length|]. split; [by apply limit_length|done].
Qed.

Lemma X12_search_bound_witness :
  Z.of_nat (length (searchByPinyin system_store "j" 1)) <= 1.
Proof.
  assert (0 <= 1) as Hmax by lia.
  exact (proj1 (X12_search_bound system_store "j" 1 Hmax)).
Defined.

#[local] Instance order_by_total : Total Sqlite.order_by.
Proof. intros r1 r2. unfold Sqlite.order_by. lia. Qed.

#[local] Instance order_by_trans : Transitive Sqlite.order_by.
Proof. intros r1 r2 r3. unfold Sqlite.order_by. lia. Qed.









(** *** Which rows a search returns *)



















(** *** Looking one word up *)

(** X16.  What [getWordInfo(word, pinyin)] returns is a dictionary candidate
    with exactly that text and that pinyin, taken from the stored row of the
    pair; when the store holds no such pair, or is closed, it returns
    nothing. *)
Theorem X16_getWordInfo (dm : t) (word word_pinyin : string) :
  (forall c, getWordInfo dm word word_pinyin = Some c ->
     text c = word /\ pinyin c = word_pinyin /\ is_prediction c = false
     /\ exists tbl row, db_ dm = Some tbl /\ tbl !! (word, word_pinyin) = Some row
                        /\ frequency c = Std.to_int (Sqlite.frequency row))
  /\ (forall tbl, db_ dm = Some tbl -> tbl !! (word, word_pinyin) = None ->
        getWordInfo dm word word_pinyin = None)
  /\ (db_ dm = None -> getWordInfo dm word word_pinyin = None).
Proof.
  assert (forall c, getWordInfo dm word word_pinyin = Some c ->
            text c = word /\ pinyin c = word_pinyin /\ is_prediction c = false
            /\ exists tbl row, db_ dm = Some tbl /\ tbl !! (word, word_pinyin) = Some row
                               /\ frequency c = Std.to_int (Sqlite.frequency row)) as Hsome.
  { intros c Hc. unfold getWordInfo in Hc. apply find_some in Hc as [Hin Hmatch].
    apply andb_true_iff in Hmatch as [Ht%String.eqb_eq Hp%String.eqb_eq].
    apply list_elem_of_In in Hin.
    destruct (search_result dm word_pinyin 100 c (or_introl Hin))
      as (tbl & row & Hdb & Hrow & Hf & _ & Hpred).
    rewrite Ht, Hp in Hrow. split; [done|]. split; [done|]. split; [done|].
    by exists tbl, row. }
  split; [exact Hsome|]. split.
  - intros tbl Hdb Hnone. destruct (getWordInfo dm word word_pinyin) as [c|] eqn:Hc; [|done].
    destruct (Hsome c eq_refl) as (_ & _ & _ & tbl' & row & Hdb' & Hrow & _). congruence.
  - intros Hdb. unfold getWordInfo, searchByPinyin. by rewrite Hdb.
Qed.

(** *** Cleaning up *)

(** X17.  [cleanupLowFrequencyWords(min)] keeps exactly the rows that are
    not user words with a frequency below [min], each unchanged, so that
    system entries are never deleted; it returns the number of rows it
    deleted (for a table of at most [INT_MAX] rows). *)
Theorem X17_cleanupLowFrequencyWords (dm : t) (tbl : Sqlite.words) (min_frequency : Z) :
  db_ dm = Some tbl ->
  exists tbl', db_ (cleanupLowFrequencyWords dm min_frequency).1 = Some tbl'
    /\ (forall k row, tbl' !! k = Some row
          <-> tbl !! k = Some row
              /\ ~ (Sqlite.is_user_word row = true /\ Sqlite.frequency row < min_frequency))
    /\ (size tbl' <= size tbl)%nat
    /\ (Z.of_nat (size tbl) <= Std.INT_MAX ->
        (cleanupLowFrequencyWords dm min_frequency).2
        = Z.of_nat (size tbl) - Z.of_nat (size tbl')).
Proof.
  intros Hdb. unfold cleanupLowFrequencyWords. rewrite Hdb. cbn [fst snd db_].
  eexists. split; [reflexivity|].
  assert (size (filter (fun kr => ~ low_frequency_user_word min_frequency kr) tbl)
          <= size tbl)%nat as Hsize by (apply map_subseteq_size, map_filter_subseteq).
  split; [|split; [exact Hsize|]].
  - intros k row. by rewrite map_lookup_filter_Some.
  - intros Hmax. rewrite to_int_id; [lia|]. unfold Std.INT_MIN, Std.INT_MAX in *. lia.
Qed.

Lemma X17_cleanupLowFrequencyWords_witness :
  let dm := (addUserWord system_store "测试" "ce shi" 1).1 in
  exists tbl', db_ (cleanupLowFrequencyWords dm 5).1 = Some tbl'
    /\ tbl' !! ("测试", "ce shi") = None
    /\ tbl' !! ("你好", "ni hao") = Some (Sqlite.mkRow 100 false).
Proof.
  intros dm.
  destruct (X17_cleanupLowFrequencyWords dm
              (<[("测试", "ce shi") := Sqlite.mkRow 1 true]> system_table) 5 eq_refl)
    as (tbl' & Hdb & Hrows & _).
  exists tbl'. split; [exact Hdb|]. split.
  - destruct (tbl' !! ("测试", "ce shi")) as [row|] eqn:Hrow; [|reflexivity].
    apply Hrows in Hrow as [Hrow Hkeep]. rewrite lookup_insert_eq in Hrow.
    injection Hrow as <-. destruct Hkeep. split; [reflexivity | simpl; lia].
  - apply Hrows. split.
    + rewrite lookup_insert_ne by discriminate. vm_compute. reflexivity.
    + intros [Huser _]. discriminate Huser.
Defined.

End DictionaryExtra.

(** ** Further properties of the prediction engine *)

Module PredictionExtra.
Import Str StrFacts PredictionEngine PredictionEngineOps DictionaryFacts.

Section WithCollaborators.
Context `{StdSort} `{LlamaPredictor}.

(** *** Threshold and scores *)

(** X18.  [setPredictionThreshold] stores a value between 0 and 1: the
    argument itself when it lies in that range, 0 below it and 1 above. *)
Theorem X18_setPredictionThreshold_clamps (threshold : Q) (pe : t) :
  let stored := getPredictionThreshold (setPredictionThreshold threshold pe) in
  (0 <= stored <= 1)%Q
  /\ ((0 <= threshold <= 1)%Q -> (stored == threshold)%Q)
  /\ ((threshold <= 0)%Q -> (stored == 0)%Q)
  /\ ((1 <= threshold)%Q -> (stored == 1)%Q).
Proof.
  cbn. split; [split|split; [|split]].
  - apply Q.le_max_l.
  - apply Q.max_lub; [done | apply Q.le_min_l].
  - intros [Hlo Hhi]. rewrite Q.min_r by done. by apply Q.max_r.
  - intros Hlo. apply Q.max_l. eapply Qle_trans; [apply Q.le_min_r | done].
  - intros Hhi. rewrite Q.min_l by done. by apply Q.max_r.
Qed.


(** *** The prediction loops *)

Lemma collect_spec (pe : t) (max : Z) (candidate : string -> Candidate) (words : list string) :
  forall predictions,
    exists extra,
      collect pe max words candidate predictions = predictions ++ extra
      /\ Forall (fun c => exists word, word ∈ words /\ c = candidate word
                          /\ (prediction_threshold_ pe <= score c)%Q) extra
      /\ Z.of_nat (length (collect pe max words candidate predictions))
         <= Z.max (Z.of_nat (length predictions)) (Std.to_size_t max).
Proof.
  induction words as [|word words IH]; intros predictions.
  - exists []. cbn [collect]. rewrite app_nil_r. split; [done|]. split; [done | lia].
  - cbn [collect]. destruct (Z.leb_spec (Std.to_size_t max) (Z.of_nat (length predictions))).
    + exists []. rewrite app_nil_r. split; [done|]. split; [done | lia].
    + destruct (Qle_bool _ _) eqn:Hth.
      * destruct (IH (predictions ++ [candidate word])) as (extra & -> & Hextra & Hlen).
        exists (candidate word :: extra). split; [by rewrite <- List.app_assoc|]. split.
        -- constructor.
           ++ exists word. split; [left|]. split; [done | by apply Qle_bool_imp_le].
           ++ eapply Forall_impl; [exact Hextra|].
              intros c (w & Hw & Hc). exists w. split; [by right | done].
        -- rewrite length_app in Hlen. cbn [length] in Hlen. rewrite <- List.app_assoc.
           rewrite !length_app in *. cbn [length] in *. lia.
      * destruct (IH predictions) as (extra & Heq & Hextra & Hlen).
        exists extra. split; [done|]. split; [|lia].
        eapply Forall_impl; [exact Hextra|].
        intros c (w & Hw & Hc). exists w. split; [by right | done].
Qed.

Lemma to_size_t_id (max : Z) : 0 <= max <= Std.INT_MAX -> Std.to_size_t max = max.
Proof.
  unfold Std.to_size_t, Std.INT_MAX. intros Hmax. apply Z.mod_small. lia.
Qed.

(** A run of three-byte characters. *)
Definition wide_word (w : string) : Prop :=
  w <> EmptyString /\ (3 | String.length w)%nat.

Lemma length_app_string (a b : string) :
  String.length (a +:+ b) = (String.length a + String.length b)%nat.
Proof. by rewrite <- !bytes_length, bytes_app, length_app. Qed.

Lemma wide_runs_spec (n : nat) :
  forall (text : list ascii) (current_word : string) (predictions : list string),
    (length text <= n)%nat ->
    (3 | String.length current_word)%nat ->
    Forall wide_word predictions ->
    Forall wide_word (wide_runs text current_word predictions).
Proof.
  induction n as [|n IH]; intros text current_word predictions Hlen Hcur Hpred.
  - destruct text; [|simpl in Hlen; lia]. cbn [wide_runs].
    destruct current_word; [done|]. apply Forall_app. split; [done|].
    by repeat constructor.
  - destruct text as [|c text]; cbn [wide_runs].
    + destruct current_word; [done|]. apply Forall_app. split; [done|].
      by repeat constructor.
    + simpl in Hlen.
      assert (Forall wide_word
                (if empty current_word then wide_runs text current_word predictions
                 else wide_runs text EmptyString (predictions ++ [current_word]))) as Hnarrow.
      { destruct current_word as [|d w]; cbn [empty].
        - apply IH; [lia | done | done].
        - apply IH; [lia | by exists 0%nat |]. apply Forall_app. split; [done|].
          by repeat constructor. }
      destruct text as [|c2 [|c3 text]]; [done | done |].
      destruct (negb _); [|done]. apply IH; [simpl in *; lia | | done].
      rewrite length_app_string. simpl. destruct Hcur as [k ->]. exists (S k). lia.
Qed.

Lemma wide_runs_ascii (text : list ascii) :
  Forall (fun c => Z.land (Std.code c) 128 = 0) text ->
  forall predictions, wide_runs text EmptyString predictions = predictions.
Proof.
  induction 1 as [|c text Hc Htext IH]; intros predictions; [done|].
  cbn [wide_runs empty]. rewrite Hc. cbn [Z.eqb negb]. rewrite IH.
  by destruct text as [|c2 [|c3 text']].
Qed.

(** X20.  Every candidate of [predictFromPinyin] is marked as a prediction,
    carries the pinyin that was asked for and frequency 0, is scored by
    [calculatePinyinScore] at or above the threshold, and its text is a
    non-empty run of three-byte groups.  With a bound [max >= 0] there are
    at most [max] of them, and a generated text of ASCII bytes only gives
    none. *)
Theorem X20_predictFromPinyin_results (pe : t) (pinyin_sequence context : string) (max : Z) :
  Forall (fun c =>
            is_prediction c = true /\ pinyin c = pinyin_sequence /\ frequency c = 0
            /\ score c = calculatePinyinScore pe (text c) pinyin_sequence context
            /\ (prediction_threshold_ pe <= score c)%Q
            /\ text c <> EmptyString /\ (3 | String.length (text c))%nat)
         (predictFromPinyin pe pinyin_sequence context max)
  /\ (0 <= max <= Std.INT_MAX ->
      Z.of_nat (length (predictFromPinyin pe pinyin_sequence context max)) <= max)
  /\ (forall generated_text,
        Forall (fun c => Z.land (Std.code c) 128 = 0) (bytes generated_text) ->
        parsePinyinPredictions generated_text pinyin_sequence = []).
Proof.
  split; [|split].
  - unfold predictFromPinyin. destruct (negb (isAvailable pe)); [done|].
    destruct (generateText pe _ _) as [generated_text|]; [|done].
    destruct (empty generated_text); [done|].
    match goal with |- context [collect pe max ?ws ?cand []] =>
      destruct (collect_spec pe max cand ws []) as (extra & -> & Hextra & _);
      assert (Forall wide_word ws) as Hwide end.
    { unfold parsePinyinPredictions.
      apply (wide_runs_spec (length (bytes generated_text))); [done | by exists 0%nat | done]. }
    cbn [app]. rewrite Forall_forall in Hwide. apply Forall_forall. intros c Hc.
    rewrite Forall_forall in Hextra. destruct (Hextra c Hc) as (word & Hword & -> & Hth).
    destruct (Hwide word Hword) as [Hne Hdiv]. cbn [is_prediction pinyin frequency score text].
    repeat split; done.
  - intros Hmax. unfold predictFromPinyin. destruct (negb (isAvailable pe)); [simpl; lia|].
    destruct (generateText pe _ _) as [generated_text|]; [|simpl; lia].
    destruct (empty generated_text); [simpl; lia|].
    match goal with |- context [collect pe max ?ws ?cand []] =>
      destruct (collect_spec pe max cand ws []) as (extra & _ & _ & Hlen) end.
    rewrite to_size_t_id in Hlen by done. simpl in Hlen. lia.
  - intros generated_text Hascii. unfold parsePinyinPredictions.
    by apply wide_runs_ascii.
Qed.

Lemma elem_of_unique (l : list string) (x : string) : x ∈ unique l -> x ∈ l.
Proof.
  induction l as [|y l IH]; [done|]. cbn [unique]. destruct l as [|z l].
  - done.
  - destruct (String.eqb y z).
    + intros Hx. right. by apply IH.
    + intros [->|Hx]%elem_of_cons; [left | right; by apply IH].
Qed.

Lemma elem_of_parseCompletions (generated_text partial_text word : string) :
  word ∈ parseCompletions generated_text partial_text ->
  is_prefix_of partial_text word /\ (String.length partial_text < String.length word)%nat.
Proof.
  unfold parseCompletions. intros Hw%elem_of_unique.
  rewrite merge_sort_Permutation in Hw. apply list_elem_of_filter in Hw as [[Hf Hl] _].
  split; [by apply find_Some_0 | done].
Qed.

Lemma completion_score_range (partial_text completion : string) :
  (String.length partial_text < String.length completion)%nat ->
  ((7 # 10) < calculateCompletionScore partial_text completion <= 85 # 100)%Q.
Proof.
  intros Hlen. unfold calculateCompletionScore.
  destruct (Nat.leb_spec (String.length completion) (String.length partial_text)); [lia|].
  set (d := (String.length completion - String.length partial_text + 1)%nat).
  assert (2 <= Z.of_nat d) as Hd by (unfold d; lia).
  destruct (Z.of_nat d) as [|x|x] eqn:Hx; [lia| |lia].
  unfold Qlt, Qle, Qdiv, Qmult, Qplus, Qinv, inject_Z. simpl. split; lia.
Qed.

(** X21.  Every candidate of [completePartialInput] has a text that starts
    with the partial input and is longer than it, is marked as a prediction
    with the placeholder pinyin and frequency 0, and has a score above 0.7
    and at most 0.85 that reaches the threshold.  An empty partial input
    gives no candidate, and a bound [max >= 0] is kept. *)
Theorem X21_completePartialInput_results (pe : t) (partial_text : string) (max : Z) :
  Forall (fun c =>
            is_prefix_of partial_text (text c)
            /\ (String.length partial_text < String.length (text c))%nat
            /\ is_prediction c = true /\ pinyin c = "pinyin" /\ frequency c = 0
            /\ ((7 # 10) < score c <= 85 # 100)%Q
            /\ (prediction_threshold_ pe <= score c)%Q)
         (completePartialInput pe partial_text max)
  /\ (partial_text = EmptyString -> completePartialInput pe partial_text max = [])
  /\ (0 <= max <= Std.INT_MAX ->
      Z.of_nat (length (completePartialInput pe partial_text max)) <= max).
Proof.
  split; [|split].
  - unfold completePartialInput. destruct (_ || _); [done|].
    destruct (generateText pe _ _) as [generated_text|]; [|done].
    destruct (empty generated_text); [done|].
    match goal with |- context [collect pe max ?ws ?cand []] =>
      destruct (collect_spec pe max cand ws []) as (extra & -> & Hextra & _) end.
    cbn [app]. apply Forall_forall. intros c Hc.
    rewrite Forall_forall in Hextra. destruct (Hextra c Hc) as (word & Hword & -> & Hth).
    apply elem_of_parseCompletions in Hword as [Hp Hl].
    cbn [is_prediction pinyin frequency score text] in *.
    split; [done|]. split; [done|]. split; [done|]. split; [done|]. split; [done|].
    split; [by apply completion_score_range | done].
  - intros ->. unfold completePartialInput. cbn [empty]. by rewrite orb_true_r.
  - intros Hmax. unfold completePartialInput. destruct (_ || _); [simpl; lia|].
    destruct (generateText pe _ _) as [generated_text|]; [|simpl; lia].
    destruct (empty generated_text); [simpl; lia|].
    match goal with |- context [collect pe max ?ws ?cand []] =>
      destruct (collect_spec pe max cand ws []) as (extra & _ & _ & Hlen) end.
    rewrite to_size_t_id in Hlen by done. simpl in Hlen. lia.
Qed.

(** A word of [parseGeneratedText]: not empty, without white space or
    punctuation. *)
Definition clean_word (w : string) : Prop :=
  w <> EmptyString /\ Forall (fun c => Std.isspace c || Std.ispunct c = false) (bytes w).

Lemma clean_push_back (w : string) (c : ascii) :
  Forall (fun c => Std.isspace c || Std.ispunct c = false) (bytes w) ->
  Std.isspace c || Std.ispunct c = false ->
  clean_word (push_back w c).
Proof.
  intros Hw Hc. split; [by destruct w|]. rewrite bytes_push_back. apply Forall_app.
  split; [done | by constructor].
Qed.

Lemma split_words_clean (text : list ascii) :
  forall (current_word : string) (words : list string),
    Forall (fun c => Std.isspace c || Std.ispunct c = false) (bytes current_word) ->
    Forall clean_word words ->
    Forall clean_word (split_words text current_word words).
Proof.
  induction text as [|c text IH]; intros current_word words Hcur Hwords; cbn [split_words].
  - destruct current_word as [|d w]; [done|]. cbn [empty]. apply Forall_app. split; [done|].
    apply Forall_singleton. by split.
  - destruct (Std.isspace c || Std.ispunct c) eqn:Hsep.
    + destruct current_word as [|d w]; cbn [empty].
      * by apply IH.
      * apply IH; [by constructor|]. apply Forall_app. split; [done|].
        apply Forall_singleton. by split.
    + apply IH; [|done]. by apply clean_push_back.
Qed.

(** X22.  The candidates of [predictNextWords] come ordered by score,
    highest first.  Each is marked as a prediction with the placeholder
    pinyin and frequency 0, reaches the threshold, and its text is a word of
    the generated text, not empty and free of white space and punctuation,
    that does not occur in the context. *)
Theorem X22_predictNextWords_results (pe : t) (context : string) (max : Z) :
  StronglySorted (fun a b => (score b <= score a)%Q) (predictNextWords pe context max)
  /\ Forall (fun c =>
               is_prediction c = true /\ pinyin c = "pinyin" /\ frequency c = 0
               /\ (prediction_threshold_ pe <= score c)%Q
               /\ ~ occurs_in (text c) context
               /\ text c <> EmptyString
               /\ Forall (fun ch => Std.isspace ch || Std.ispunct ch = false) (bytes (text c)))
            (predictNextWords pe context max)
  /\ (0 <= max <= Std.INT_MAX ->
      Z.of_nat (length (predictNextWords pe context max)) <= max).
Proof.
  split; [|split].
  - unfold predictNextWords. destruct (negb (isAvailable pe)); [constructor|].
    destruct (generateText pe _ _) as [generated_text|]; [|constructor].
    destruct (empty generated_text); [constructor|]. apply sort_by_score_sorted.
  - unfold predictNextWords. destruct (negb (isAvailable pe)); [done|].
    destruct (generateText pe _ _) as [generated_text|]; [|done].
    destruct (empty generated_text); [done|].
    match goal with |- context [collect pe max ?ws ?cand []] =>
      destruct (collect_spec pe max cand ws []) as (extra & -> & Hextra & _) end.
    cbn [app]. apply Forall_forall. intros c Hc. rewrite sort_by_score_perm in Hc.
    rewrite Forall_forall in Hextra. destruct (Hextra c Hc) as (word & Hword & -> & Hth).
    unfold parseGeneratedText in Hword. apply list_elem_of_filter in Hword as [Hctx Hword].
    pose proof (split_words_clean (bytes generated_text) EmptyString []
                  (Forall_nil_2 _) (Forall_nil_2 _)) as Hclean.
    rewrite Forall_forall in Hclean. destruct (Hclean word Hword) as [Hne Hchars].
    cbn [is_prediction pinyin frequency score text] in *.
    split; [done|]. split; [done|]. split; [done|]. split; [done|].
    split; [by apply find_None_not | done].
  - intros Hmax. unfold predictNextWords. destruct (negb (isAvailable pe)); [simpl; lia|].
    destruct (generateText pe _ _) as [generated_text|]; [|simpl; lia].
    destruct (empty generated_text); [simpl; lia|].
    match goal with |- context [collect pe max ?ws ?cand []] =>
      destruct (collect_spec pe max cand ws []) as (extra & _ & _ & Hlen) end.
    rewrite (Permutation_length (sort_by_score_perm _)).
    rewrite to_size_t_id in Hlen by done. simpl in Hlen. lia.
Qed.

(** *** Learning from selections *)


End WithCollaborators.
End PredictionExtra.

(** ** Further properties of the engine *)

Module EngineExtra.
Import Str StrFacts Engine EngineFacts EngineOps.

Section WithCollaborators.
Context `{StdSort} `{LlamaPredictor}.

#[local] Arguments merged_candidates : simpl never.
#[local] Arguments PinyinConverter.addChar : simpl never.
#[local] Arguments PinyinConverter.removeLastChar : simpl never.
#[local] Arguments PinyinConverter.clear : simpl never.
#[local] Arguments DictionaryManager.updateWordFrequency : simpl never.
#[local] Arguments Std.to_size_t : simpl never.
#[local] Arguments Std.to_int : simpl never.
#[local] Arguments Std.to_char : simpl never.
#[local] Arguments Std.tolower : simpl never.
#[local] Arguments Std.in_range : simpl never.
#[local] Arguments Std.stoi : simpl never.

(** *** Rejections *)

Lemma selectCandidate_rejects (index : Z) (e : t) :
  (selectCandidate index e).2 = false -> (selectCandidate index e).1 = e.
Proof.
  unfold selectCandidate. destruct (_ || _); [done|].
  by destruct (candidates_ e !! Z.to_nat index).
Qed.

(** X24.  An event that [processInput] rejects has no effect: when the
    returned value is false, the engine, with its store, its buffer and the
    notifications made so far, is exactly as before. *)
Theorem X24_rejected_event_changes_nothing (event : InputEvent) (e : t) :
  (processInput event e).2 = false -> (processInput event e).1 = e.
Proof.
  unfold processInput. destruct (type event); try done.
  - unfold handleKeyPress.
    destruct (key_code event =? 8); [by destruct (negb _)|].
    destruct (key_code event =? 27); [done|].
    destruct (key_code event =? 13); [by destruct (negb _)|].
    cbn zeta. destruct (_ && _); [done|]. destruct (_ || _); [|done].
    destruct (PinyinConverter.addChar _ _) as [pc ok]. by destruct ok.
  - unfold handleCandidateSelect. destruct (Std.stoi _); [|done].
    apply selectCandidate_rejects.
Qed.

(** *** Clearing and committing *)

(** What [clearComposition] tells the callbacks: the change of state if there
    is one, then the empty candidate list. *)
Definition clear_notifications (e : t) : list Notification :=
  (if bool_decide (state_ e <> IDLE) && state_change_callback_ e
   then [StateChanged IDLE] else [])
  ++ (if candidate_callback_ e then [CandidatesChanged []] else []).

Lemma notifications_clearComposition (e : t) :
  notifications (clearComposition e) = notifications e ++ clear_notifications e.
Proof.
  unfold clearComposition, clear_notifications, setState. destruct e as [? st ? ? ? ? ? cc mc sc ns].
  cbn. case_bool_decide; destruct sc, cc; cbn; by rewrite ?app_nil_r, <- ?List.app_assoc.
Qed.

Lemma callbacks_clearComposition (e : t) :
  candidate_callback_ (clearComposition e) = candidate_callback_ e
  /\ commit_callback_ (clearComposition e) = commit_callback_ e
  /\ state_change_callback_ (clearComposition e) = state_change_callback_ e.
Proof.
  unfold clearComposition, setState. destruct e as [? st ? ? ? ? ? cc mc sc ns].
  cbn. case_bool_decide; destruct sc, cc; done.
Qed.

Lemma buffer_clear (e : t) :
  buffer (clearComposition e) = EmptyString.
Proof. unfold buffer. by destruct (clearComposition_result e) as (_ & _ & _ & -> & _). Qed.

(** X25.  [clearComposition] resets the session from any state: the state
    is IDLE, the composition, the segmenter's buffer and the candidate list
    are empty, configuration, store and predictor are untouched, and the
    callbacks hear of the change of state, if the state was not IDLE, and
    then of the empty candidate list.  The Escape key does exactly this and
    reports success; the Enter key on a non-empty composition first commits
    the composition itself as text. *)
Theorem X25_clearComposition_resets (e : t) :
  let e' := clearComposition e in
  (state_ e' = IDLE /\ composition_ e' = EmptyString /\ buffer e' = EmptyString
   /\ candidates_ e' = [] /\ config_ e' = config_ e
   /\ dictionary_manager_ e' = dictionary_manager_ e
   /\ prediction_engine_ e' = prediction_engine_ e
   /\ notifications e' = notifications e ++ clear_notifications e)
  /\ (forall event, type event = KEY_PRESS -> key_code event = 27 ->
        processInput event e = (e', true))
  /\ (forall event, type event = KEY_PRESS -> key_code event = 13 ->
        composition_ e <> EmptyString ->
        let committed := if commit_callback_ e then [TextCommitted (composition_ e)] else [] in
        (processInput event e).2 = true
        /\ state_ (processInput event e).1 = IDLE
        /\ composition_ (processInput event e).1 = EmptyString
        /\ notifications (processInput event e).1
           = notifications e ++ committed ++ clear_notifications e).
Proof.
  intros e'. split; [|split].
  - unfold e'. destruct (clearComposition_result e) as (-> & -> & -> & _ & -> & -> & ->).
    rewrite buffer_clear, notifications_clearComposition. done.
  - intros event Htype Hk. unfold processInput, handleKeyPress. by rewrite Htype, Hk.
  - intros event Htype Hk Hne committed. unfold processInput, handleKeyPress.
    rewrite Htype, Hk. cbn [Z.eqb Pos.eqb].
    destruct (composition_ e) as [|c s] eqn:Hcomp; [done|]. cbn [empty negb fst snd].
    unfold commitComposition. rewrite Hcomp. cbn [empty negb fst]. rewrite andb_true_r.
    match goal with |- context [clearComposition ?x] =>
      destruct (clearComposition_result x) as (-> & -> & _);
      rewrite (notifications_clearComposition x) end.
    split; [done|]. split; [done|]. split; [done|].
    unfold committed, clear_notifications. destruct (commit_callback_ e); cbn; [|done].
    by rewrite <- List.app_assoc.
Qed.

(** *** Selecting a candidate *)

Lemma digit_key (index : Z) :
  0 <= index <= 8 ->
  let k := Std.code "1" + index in
  (k =? 8) = false /\ (k =? 27) = false /\ (k =? 13) = false
  /\ Std.in_range "1" "9" (Std.to_char k) = true
  /\ Std.code (Std.to_char k) - Std.code "1" = index.
Proof.
  intros Hi.
  assert (index = 0 \/ index = 1 \/ index = 2 \/ index = 3 \/ index = 4 \/ index = 5
          \/ index = 6 \/ index = 7 \/ index = 8) as Hcases by lia.
  destruct Hcases as [->|[->|[->|[->|[->|[->|[->|[->| ->]]]]]]]];
    vm_compute; repeat split; reflexivity.
Qed.

(** X26.  Selecting the candidate at a valid index commits its text and
    ends the composition: [selectCandidate] returns true, the commit callback
    hears the candidate's text before the callbacks of [clearComposition]
    run, the engine is IDLE with nothing composed and no candidate, and the
    store is the one [updateWordFrequency] leaves for the candidate's text and
    pinyin when learning is enabled, the same store otherwise.  The digit key
    with code ['1' + index], for an index up to 8, does the same. *)
Theorem X26_selectCandidate_commits (index : Z) (e : t) (c : Candidate) :
  0 <= index ->
  Z.of_nat (length (candidates_ e)) <= Std.INT_MAX ->
  candidates_ e !! Z.to_nat index = Some c ->
  let r := selectCandidate index e in
  r.2 = true
  /\ state_ r.1 = IDLE /\ composition_ r.1 = EmptyString /\ candidates_ r.1 = []
  /\ dictionary_manager_ r.1
     = (if enable_learning (config_ e)
        then (DictionaryManager.updateWordFrequency (dictionary_manager_ e)
                (text c) (pinyin c)).1
        else dictionary_manager_ e)
  /\ notifications r.1
     = notifications e ++ (if commit_callback_ e then [TextCommitted (text c)] else [])
       ++ clear_notifications e
  /\ (forall event, type event = KEY_PRESS -> key_code event = Std.code "1" + index ->
        index <= 8 -> processInput event e = (r.1, true)).
Proof.
  intros Hindex Hsize Hc r.
  assert (Z.to_nat index < length (candidates_ e))%nat as Hlt by by eapply lookup_lt_Some.
  assert (Std.to_int (Z.of_nat (length (candidates_ e))) = Z.of_nat (length (candidates_ e)))
    as Hint.
  { apply DictionaryFacts.to_int_id. unfold Std.INT_MIN. lia. }
  assert (r = (clearComposition
                 (let e1 := if enable_learning (config_ e) then
                      set_dictionary_manager_
                        (DictionaryManager.updateWordFrequency (dictionary_manager_ e)
                           (text c) (pinyin c)).1 e
                    else e in
                  if commit_callback_ e1 then notify (TextCommitted (text c)) e1 else e1),
               true)) as Hr.
  { unfold r, selectCandidate. rewrite Hint, Hc.
    replace (index <? 0) with false by (symmetry; apply Z.ltb_ge; lia).
    replace (Z.of_nat (length (candidates_ e)) <=? index) with false
      by (symmetry; apply Z.leb_gt; lia).
    reflexivity. }
  split; [by rewrite Hr|]. split; [|split; [|split; [|split; [|split]]]].
  - rewrite Hr. cbn [fst]. apply clearComposition_result.
  - rewrite Hr. cbn [fst]. apply clearComposition_result.
  - rewrite Hr. cbn [fst]. apply clearComposition_result.
  - rewrite Hr. cbn [fst].
    match goal with |- context [clearComposition ?x] =>
      destruct (clearComposition_result x) as (_ & _ & _ & _ & _ & -> & _) end.
    cbn zeta. destruct (enable_learning (config_ e));
      cbn [commit_callback_ set_dictionary_manager_]; by destruct (commit_callback_ e).
  - rewrite Hr. cbn [fst]. rewrite notifications_clearComposition. cbn zeta.
    unfold clear_notifications.
    destruct (enable_learning (config_ e));
      cbn [commit_callback_ set_dictionary_manager_];
      destruct (commit_callback_ e); cbn; by rewrite <- ?List.app_assoc.
  - intros event Htype Hk Hle. unfold processInput, handleKeyPress. rewrite Htype, Hk.
    destruct (digit_key index) as (-> & -> & -> & Hrange & Hcode); [lia|].
    cbn zeta. rewrite Hrange, Hcode, Hint.
    replace (index <? Z.of_nat (length (candidates_ e))) with true
      by (symmetry; apply Z.ltb_lt; lia).
    reflexivity.
Qed.

(** *** The session state *)

(** What ties the members of a session together. *)
Record session_ok (e : t) : Prop := {
  session_buffer : composition_ e = buffer e;
  session_converter : PinyinFacts.inv (pinyin_converter_ e);
  session_idle : state_ e = IDLE <-> composition_ e = EmptyString;
  session_candidates : composition_ e = EmptyString -> candidates_ e = []
}.

Lemma session_ok_clearComposition (e : t) :
  PinyinFacts.inv (pinyin_converter_ e) -> session_ok (clearComposition e).
Proof.
  intros Hinv. pose proof (buffer_clear e) as Hbuffer.
  destruct (clearComposition_result e) as (Hs & Hc & Hl & Hpc & _).
  split.
  - by rewrite Hc, Hbuffer.
  - rewrite Hpc. by apply PinyinFacts.inv_clear.
  - by rewrite Hs, Hc.
  - done.
Qed.

Lemma session_ok_updateCandidates (e : t) :
  PinyinFacts.inv (pinyin_converter_ e) -> session_ok (updateCandidates e).
Proof.
  intros Hinv. destruct (updateCandidates_result e) as (Hs & Hc & Hl & Hpc & _).
  assert (buffer (updateCandidates e) = buffer e) as Hbuffer by (unfold buffer; by rewrite Hpc).
  split.
  - by rewrite Hc, Hbuffer.
  - by rewrite Hpc.
  - rewrite Hs, Hc. destruct (buffer e); simpl; split; done.
  - rewrite Hc, Hl. by intros ->.
Qed.

Lemma session_ok_selectCandidate (index : Z) (e : t) :
  session_ok e -> session_ok (selectCandidate index e).1.
Proof.
  intros He. unfold selectCandidate. destruct (_ || _); [done|].
  destruct (candidates_ e !! Z.to_nat index) as [candidate|]; [|done].
  cbn [fst]. apply session_ok_clearComposition.
  destruct (enable_learning (config_ e)); cbn [commit_callback_ set_dictionary_manager_];
    destruct (commit_callback_ e); apply He.
Qed.

Lemma session_ok_handleKeyPress (event : InputEvent) (e : t) :
  session_ok e -> session_ok (handleKeyPress event e).1.
Proof.
  intros He. pose proof (session_converter e He) as Hinv. unfold handleKeyPress.
  destruct (key_code event =? 8).
  { destruct (negb _); [|done]. cbn [fst]. apply session_ok_updateCandidates.
    by apply PinyinFacts.inv_removeLastChar. }
  destruct (key_code event =? 27).
  { cbn [fst]. by apply session_ok_clearComposition. }
  destruct (key_code event =? 13).
  { destruct (negb _); [|done]. cbn [fst]. unfold commitComposition. cbn [fst].
    apply session_ok_clearComposition. by destruct (_ && _). }
  cbn zeta. destruct (_ && _).
  { cbn [fst]. by apply session_ok_selectCandidate. }
  destruct (_ || _); [|done].
  destruct (PinyinConverter.addChar _ _) as [pc ok] eqn:Hadd. destruct ok; [|done].
  cbn [fst].
  assert ((PinyinConverter.addChar (Std.tolower (Std.to_char (key_code event)))
             (pinyin_converter_ e)).2 = true) as Hok by by rewrite Hadd.
  apply PinyinFacts.addChar_accepts in Hok as [Hpc _]. rewrite Hadd in Hpc. cbn [fst] in Hpc.
  assert (PinyinFacts.inv pc) as Hinv'.
  { pose proof (PinyinFacts.inv_addChar (Std.tolower (Std.to_char (key_code event)))
                  _ Hinv) as Hi. by rewrite Hadd in Hi. }
  pose proof (session_ok_updateCandidates (set_pinyin_converter_ pc e) Hinv') as Hu.
  destruct (updateCandidates_result (set_pinyin_converter_ pc e)) as (_ & Hc & _ & Hpc' & _).
  match goal with |- session_ok (setState ?s ?x) =>
    destruct (setState_frame s x) as (_ & Hc1 & Hl1 & Hpc1 & _);
    pose proof (state_setState s x) as Hs1 end.
  assert (composition_ (updateCandidates (set_pinyin_converter_ pc e)) <> EmptyString) as Hne.
  { rewrite Hc. unfold buffer, PinyinConverter.getCurrentPinyin.
    cbn [pinyin_converter_ set_pinyin_converter_]. rewrite Hpc.
    cbn [PinyinConverter.current_pinyin_ PinyinConverter.set_current_pinyin_].
    intros Hempty%empty_true. by rewrite PinyinExtra.empty_push_back in Hempty. }
  split.
  - unfold buffer. rewrite Hc1, Hpc1. apply Hu.
  - rewrite Hpc1. apply Hu.
  - rewrite Hs1, Hc1. split; [done|]. intros Hempty. by destruct Hne.
  - rewrite Hc1. intros Hempty. by destruct Hne.
Qed.

Lemma session_ok_processInput (event : InputEvent) (e : t) :
  session_ok e -> session_ok (processInput event e).1.
Proof.
  intros He. pose proof (session_converter e He) as Hinv.
  unfold processInput. destruct (type event).
  - by apply session_ok_handleKeyPress.
  - done.
  - unfold handleCandidateSelect. destruct (Std.stoi _); [|done].
    by apply session_ok_selectCandidate.
  - unfold handleCommitText. cbn [fst]. apply session_ok_clearComposition.
    by destruct (commit_callback_ e).
  - cbn [fst]. by apply session_ok_clearComposition.
Qed.

Lemma session_ok_processInputs (events : list InputEvent) (e : t) :
  session_ok e -> session_ok (processInputs events e).1.
Proof.
  revert e. induction events as [|event events IH]; intros e He; [done|].
  cbn [processInputs].
  pose proof (session_ok_processInput event e He) as Hstep.
  destruct (processInput event e) as [e1 ok].
  specialize (IH e1 Hstep). by destruct (processInputs events e1).
Qed.

(** [initialize] touches the three components only. *)
Lemma initialize_frame (disk : option Sqlite.words) (model_file_good : bool) (e : t) :
  let e' := (initialize disk model_file_good e).1 in
  config_ e' = config_ e /\ state_ e' = state_ e /\ composition_ e' = composition_ e
  /\ candidates_ e' = candidates_ e
  /\ pinyin_converter_ e' = (PinyinConverter.initialize (pinyin_converter_ e)).1
  /\ notifications e' = notifications e.
Proof.
  unfold initialize.
  destruct (PinyinConverter.initialize (pinyin_converter_ e)) as [pc ok]. destruct ok; [|done].
  cbn [negb]. cbn [dictionary_manager_ set_pinyin_converter_].
  destruct (DictionaryManager.initialize disk (dictionary_manager_ e)) as [dm ok].
  destruct ok; [|done].
  cbn [negb]. cbn [prediction_engine_ set_pinyin_converter_ set_dictionary_manager_].
  destruct (prediction_engine_ e) as [pe|]; [|done].
  destruct (PredictionEngine.initialize model_file_good pe) as [pe' ok]. by destruct ok.
Qed.

Lemma session_ok_initialize (config : EngineConfig) (candidate_cb commit_cb state_change_cb : bool)
    (disk : option Sqlite.words) (model_file_good : bool) :
  session_ok
    (initialize disk model_file_good (new config candidate_cb commit_cb state_change_cb)).1.
Proof.
  destruct (initialize_frame disk model_file_good
              (new config candidate_cb commit_cb state_change_cb))
    as (_ & Hs & Hc & Hl & Hpc & _).
  cbn [new state_ composition_ candidates_ pinyin_converter_] in Hs, Hc, Hl, Hpc.
  split.
  - unfold buffer. rewrite Hc, Hpc. reflexivity.
  - rewrite Hpc. apply PinyinFacts.inv_initialize, PinyinFacts.inv_new.
  - by rewrite Hs, Hc.
  - done.
Qed.

(** X27.  In every engine reached from a new, initialized engine by a run
    of input events, the composition is the segmenter's buffer and is at most
    six bytes long, the state is IDLE exactly when the composition is empty,
    and an empty composition has no candidates. *)
Theorem X27_session_invariant (config : EngineConfig)
    (candidate_cb commit_cb state_change_cb : bool)
    (disk : option Sqlite.words) (model_file_good : bool) (events : list InputEvent) :
  let e0 := (initialize disk model_file_good
               (new config candidate_cb commit_cb state_change_cb)).1 in
  let e := (processInputs events e0).1 in
  composition_ e = buffer e
  /\ (String.length (composition_ e) <= 6)%nat
  /\ (state_ e = IDLE <-> composition_ e = EmptyString)
  /\ (composition_ e = EmptyString -> candidates_ e = []).
Proof.
  intros e0 e.
  destruct (session_ok_processInputs events e0
              (session_ok_initialize config candidate_cb commit_cb state_change_cb
                 disk model_file_good)) as [Hb Hinv Hidle Hcand].
  fold e in Hb, Hinv, Hidle, Hcand.
  split; [done|]. split; [|done]. rewrite Hb.
  apply PinyinFacts.buffer_ok_length, Hinv.
Qed.

(** *** The candidate lists of a run *)

(** A property [P] of the empty list and of the lists [updateCandidates]
    computes, given a property [K] of configuration, store and predictor
    that no handler breaks, holds as [C] of the candidate list after every
    run and as [Q] of every list published since the notifications were
    [base]. *)
Section Lists.
Variable K : t -> Prop.
Variables P C Q : list Candidate -> Prop.
Variable base : list Notification.
Hypothesis K_frame : forall e e',
  config_ e' = config_ e -> dictionary_manager_ e' = dictionary_manager_ e ->
  prediction_engine_ e' = prediction_engine_ e -> K e -> K e'.
Hypothesis K_learn : forall e word word_pinyin,
  K e ->
  K (set_dictionary_manager_
       (DictionaryManager.updateWordFrequency (dictionary_manager_ e) word word_pinyin).1 e).
Hypothesis P_nil : P [].
Hypothesis P_recomputed : forall e, K e -> P (recomputed e).
Hypothesis P_C : forall l, P l -> C l.
Hypothesis P_Q : forall l, P l -> Q l.

Definition lists_ok (e : t) : Prop :=
  K e /\ C (candidates_ e)
  /\ exists extra, notifications e = base ++ extra /\ forall l, published extra l -> Q l.

Lemma lists_ok_set (e e' : t) :
  config_ e' = config_ e -> dictionary_manager_ e' = dictionary_manager_ e ->
  prediction_engine_ e' = prediction_engine_ e -> notifications e' = notifications e ->
  C (candidates_ e') -> lists_ok e -> lists_ok e'.
Proof.
  intros Hc Hd Hp Hn Hl (HK & _ & Hlog). split; [by apply (K_frame e)|]. split; [done|].
  by rewrite Hn.
Qed.

Lemma lists_ok_notify (n : Notification) (e : t) :
  (forall l, n = CandidatesChanged l -> Q l) -> lists_ok e -> lists_ok (notify n e).
Proof.
  intros Hn (HK & HC & extra & Hlog & HQ). split; [by apply (K_frame e)|]. split; [done|].
  exists (extra ++ [n]). cbn [notifications notify]. split; [by rewrite Hlog, List.app_assoc|].
  intros l [Hin|Hin%list_elem_of_singleton]%elem_of_app; [by apply HQ | by apply Hn].
Qed.

Lemma lists_ok_setState (s : InputState) (e : t) : lists_ok e -> lists_ok (setState s e).
Proof.
  intros He. unfold setState. case_bool_decide; [|done].
  assert (lists_ok (set_state_ s e)) as He'.
  { apply (lists_ok_set e); try done. apply He. }
  destruct (state_change_callback_ _); [|done]. by apply lists_ok_notify.
Qed.

Lemma lists_ok_publish (e : t) : P (candidates_ e) -> lists_ok e -> lists_ok (publish e).
Proof.
  intros HP He. unfold publish. destruct (candidate_callback_ e); [|done].
  apply lists_ok_notify; [|done]. intros l [= <-]. by apply P_Q.
Qed.

Lemma lists_ok_commit (s : string) (e : t) :
  lists_ok e -> lists_ok (notify (TextCommitted s) e).
Proof. by apply lists_ok_notify. Qed.

Ltac candidates_setState :=
  match goal with |- context [setState ?s ?x] =>
    destruct (setState_frame s x) as (_ & _ & -> & _) end.

Lemma lists_ok_clearComposition (e : t) : lists_ok e -> lists_ok (clearComposition e).
Proof.
  intros He. rewrite clearComposition_eq. apply lists_ok_publish.
  - candidates_setState. apply P_nil.
  - apply lists_ok_setState, (lists_ok_set e); try done. by apply P_C.
Qed.

Lemma lists_ok_updateCandidates (e : t) : lists_ok e -> lists_ok (updateCandidates e).
Proof.
  intros He. rewrite updateCandidates_eq. destruct (empty (buffer e)).
  - apply lists_ok_publish.
    + candidates_setState. apply P_nil.
    + apply lists_ok_setState, (lists_ok_set e); try done. by apply P_C.
  - apply lists_ok_publish.
    + candidates_setState. apply P_recomputed, He.
    + apply lists_ok_setState, (lists_ok_set e); try done. apply P_C, P_recomputed, He.
Qed.

Lemma lists_ok_selectCandidate (index : Z) (e : t) :
  lists_ok e -> lists_ok (selectCandidate index e).1.
Proof.
  intros He. unfold selectCandidate. destruct (_ || _); [done|].
  destruct (candidates_ e !! Z.to_nat index) as [candidate|]; [|done].
  cbn [fst]. apply lists_ok_clearComposition.
  assert (lists_ok
            (if enable_learning (config_ e)
             then set_dictionary_manager_
                    (DictionaryManager.updateWordFrequency (dictionary_manager_ e)
                       (text candidate) (pinyin candidate)).1 e
             else e)) as He1.
  { destruct (enable_learning (config_ e)); [|done].
    destruct He as (HK & HC & Hlog). split; [by apply K_learn|]. by split. }
  cbn zeta. destruct (commit_callback_ _); [by apply lists_ok_commit | done].
Qed.

Lemma lists_ok_handleKeyPress (event : InputEvent) (e : t) :
  lists_ok e -> lists_ok (handleKeyPress event e).1.
Proof.
  intros He. unfold handleKeyPress.
  destruct (key_code event =? 8).
  { destruct (negb _); [|done]. cbn [fst]. apply lists_ok_updateCandidates.
    apply (lists_ok_set e); try done. apply He. }
  destruct (key_code event =? 27).
  { cbn [fst]. by apply lists_ok_clearComposition. }
  destruct (key_code event =? 13).
  { destruct (negb _); [|done]. cbn [fst]. unfold commitComposition. cbn [fst].
    apply lists_ok_clearComposition. destruct (_ && _); [by apply lists_ok_commit | done]. }
  cbn zeta. destruct (_ && _).
  { cbn [fst]. by apply lists_ok_selectCandidate. }
  destruct (_ || _); [|done].
  destruct (PinyinConverter.addChar _ _) as [pc ok]. destruct ok; [|done].
  cbn [fst]. apply lists_ok_setState, lists_ok_updateCandidates.
  apply (lists_ok_set e); try done. apply He.
Qed.

Lemma lists_ok_processInput (event : InputEvent) (e : t) :
  lists_ok e -> lists_ok (processInput event e).1.
Proof.
  intros He. unfold processInput. destruct (type event).
  - by apply lists_ok_handleKeyPress.
  - done.
  - unfold handleCandidateSelect. destruct (Std.stoi _); [|done].
    by apply lists_ok_selectCandidate.
  - unfold handleCommitText. cbn [fst]. apply lists_ok_clearComposition.
    destruct (commit_callback_ e); [by apply lists_ok_commit | done].
  - cbn [fst]. by apply lists_ok_clearComposition.
Qed.

Lemma lists_ok_processInputs (events : list InputEvent) (e : t) :
  lists_ok e -> lists_ok (processInputs events e).1.
Proof.
  revert e. induction events as [|event events IH]; intros e He; [done|].
  cbn [processInputs].
  pose proof (lists_ok_processInput event e He) as Hstep.
  destruct (processInput event e) as [e1 ok].
  specialize (IH e1 Hstep). by destruct (processInputs events e1).
Qed.

End Lists.

(** **** The number of candidates *)

Lemma length_truncate (max : Z) (l : list Candidate) :
  0 <= max <= Std.INT_MAX -> Z.of_nat (length (truncate max l)) <= max.
Proof.
  intros Hmax. unfold truncate. rewrite PredictionExtra.to_size_t_id by done.
  destruct (Z.ltb_spec max (Z.of_nat (length l))) as [Hlt|Hge]; [|done].
  rewrite length_take. lia.
Qed.

(** X28.  With [max_candidates] between 0 and [INT_MAX], no candidate list
    that a run of events computes is longer than [max_candidates]: the
    candidate list after the run is the one before it or has at most
    [max_candidates] entries, and so has every list published during the
    run. *)
Theorem X28_candidate_count_bound (e : t) (events : list InputEvent) :
  0 <= max_candidates (config_ e) <= Std.INT_MAX ->
  let bounded l := Z.of_nat (length l) <= max_candidates (config_ e) in
  let e' := (processInputs events e).1 in
  (candidates_ e' = candidates_ e \/ bounded (candidates_ e'))
  /\ exists during, notifications e' = notifications e ++ during
       /\ forall l, published during l -> bounded l.
Proof.
  intros Hmax bounded e'.
  apply (lists_ok_processInputs
           (fun x => config_ x = config_ e)
           bounded
           (fun l => l = candidates_ e \/ bounded l)
           bounded
           (notifications e)).
  - intros x x' Hc _ _ Hx. by rewrite Hc.
  - done.
  - unfold bounded. simpl. lia.
  - intros x Hx. unfold bounded, recomputed. rewrite Hx. by apply length_truncate.
  - by right.
  - done.
  - split; [done|]. split; [by left|]. exists []. split; [by rewrite app_nil_r|].
    intros l Hl. by apply elem_of_nil in Hl.
Qed.

(** **** After [shutdown] *)

Lemma isAvailable_shutdown (pe : PredictionEngine.t) :
  PredictionEngine.isAvailable (PredictionEngine.shutdown pe) = false.
Proof.
  unfold PredictionEngine.isAvailable, PredictionEngine.shutdown.
  by destruct (PredictionEngine.llama_predictor_ pe).
Qed.

(** A closed store and no available predictor. *)
Definition closed (e : t) : Prop :=
  DictionaryManager.db_ (dictionary_manager_ e) = None
  /\ forall pe, prediction_engine_ e = Some pe -> PredictionEngine.isAvailable pe = false.

Lemma recomputed_closed (e : t) : closed e -> recomputed e = [].
Proof.
  intros [Hdb Hpe]. unfold recomputed. rewrite merged_candidates_eq.
  assert (dictionary_results e = []) as ->.
  { unfold dictionary_results, DictionaryManager.searchByPinyin. by rewrite Hdb. }
  assert (predicted e = []) as ->.
  { unfold predicted. destruct (prediction_engine_ e) as [pe|]; [|done].
    by rewrite (Hpe pe eq_refl). }
  cbn [fold_left].
  assert (sort_by_score [] = []) as ->.
  { apply Permutation_nil_r, sort_by_score_perm. }
  unfold truncate. destruct (_ <? _); [apply take_nil | done].
Qed.

Lemma closed_shutdown (e : t) : closed (shutdown e).
Proof.
  unfold shutdown.
  match goal with |- closed (clearComposition ?x) =>
    destruct (clearComposition_result x) as (_ & _ & _ & _ & _ & Hd & Hp) end.
  split.
  - by rewrite Hd.
  - intros pe. rewrite Hp. cbn [prediction_engine_ set_dictionary_manager_].
    destruct (prediction_engine_ e) as [pe0|] eqn:Hpe.
    + cbn [prediction_engine_ set_prediction_engine_]. intros [= <-].
      apply isAvailable_shutdown.
    + rewrite Hpe. discriminate.
Qed.

(** X29.  After [shutdown] the engine still takes events but offers
    nothing: whatever events follow, the candidate list is empty, and every
    list the candidate callback hears of from the shutdown on is empty. *)
Theorem X29_shutdown_offers_nothing (e0 : t) (events : list InputEvent) :
  let e' := (processInputs events (shutdown e0)).1 in
  candidates_ e' = []
  /\ exists since, notifications e' = notifications e0 ++ since
       /\ forall l, published since l -> l = [].
Proof.
  intros e'.
  apply (lists_ok_processInputs closed
           (fun l => l = [])
           (fun l => l = [])
           (fun l => l = [])
           (notifications e0)).
  - intros x x' _ Hd Hp [Hdb Hpe]. split; [by rewrite Hd | by rewrite Hp].
  - intros x word word_pinyin [Hdb Hpe].
    unfold DictionaryManager.updateWordFrequency. rewrite Hdb. by split.
  - done.
  - apply recomputed_closed.
  - done.
  - done.
  - split; [apply closed_shutdown|]. split.
    + unfold shutdown. apply clearComposition_result.
    + unfold shutdown. rewrite notifications_clearComposition.
      cbn [notifications set_dictionary_manager_].
      assert (forall x : t, notifications
                (match prediction_engine_ x with
                 | Some pe => set_prediction_engine_ (Some (PredictionEngine.shutdown pe)) x
                 | None => x
                 end) = notifications x) as -> by (intros x; by destruct (prediction_engine_ x)).
      eexists. split; [reflexivity|]. unfold published, clear_notifications.
      intros l [Hin|Hin]%elem_of_app.
      * destruct (_ && _); [|by apply elem_of_nil in Hin].
        apply list_elem_of_singleton in Hin. discriminate.
      * destruct (candidate_callback_ _); [|by apply elem_of_nil in Hin].
        apply list_elem_of_singleton in Hin. by injection Hin as ->.
Qed.

(** **** Predictions among the candidates *)

Lemma elem_of_fold_add_prediction (threshold : Q) (predicted candidates : list Candidate)
    (c : Candidate) :
  c ∈ fold_left (add_prediction threshold) predicted candidates ->
  c ∈ candidates \/ (c ∈ predicted /\ (threshold <= score c)%Q).
Proof.
  revert candidates. induction predicted as [|p predicted IH]; intros candidates; [by left|].
  cbn [fold_left]. intros [Hc|[Hc Hs]]%IH.
  - unfold add_prediction in Hc. destruct (negb _); [|by left].
    destruct (Qle_bool threshold (score p)) eqn:Hle; [|by left].
    cbn [andb] in Hc. apply elem_of_app in Hc as [Hc|Hc%list_elem_of_singleton]; [by left|].
    subst c. right. split; [left | by apply Qle_bool_iff].
  - right. split; [by right | done].
Qed.

Lemma searchByPinyin_not_prediction (dm : DictionaryManager.t) (input_pinyin : string)
    (max_results : Z) (c : Candidate) :
  c ∈ DictionaryManager.searchByPinyin dm input_pinyin max_results -> is_prediction c = false.
Proof.
  unfold DictionaryManager.searchByPinyin. destruct (DictionaryManager.db_ dm) as [tbl|].
  - unfold DictionaryManager.to_candidates. by intros (r & -> & _)%list_elem_of_fmap.
  - intros Hc. by apply elem_of_nil in Hc.
Qed.

(** X30.  A prediction enters a candidate list only from an available
    prediction engine and only with a score at or above the configured
    threshold: in the candidate list a run of events leaves, unless it is the
    list from before the run, and in every list published during the run,
    each candidate marked as a prediction has such a score, and the engine has
    a predictor that is available. *)
Theorem X30_predictions_pass_threshold (e : t) (events : list InputEvent) :
  let good l := forall c, c ∈ l -> is_prediction c = true ->
    (exists pe, prediction_engine_ e = Some pe /\ PredictionEngine.isAvailable pe = true)
    /\ (prediction_threshold (config_ e) <= score c)%Q in
  let e' := (processInputs events e).1 in
  (candidates_ e' = candidates_ e \/ good (candidates_ e'))
  /\ exists during, notifications e' = notifications e ++ during
       /\ forall l, published during l -> good l.
Proof.
  intros good e'.
  apply (lists_ok_processInputs
           (fun x => config_ x = config_ e /\ prediction_engine_ x = prediction_engine_ e)
           good
           (fun l => l = candidates_ e \/ good l)
           good
           (notifications e)).
  - intros x x' Hc _ Hp [Hx Hx']. split; [by rewrite Hc | by rewrite Hp].
  - done.
  - intros c Hc. by apply elem_of_nil in Hc.
  - intros x [Hcfg Hpe] c Hc Hpred. unfold recomputed in Hc.
    apply truncate_subseteq in Hc. rewrite sort_by_score_perm in Hc.
    rewrite merged_candidates_eq in Hc.
    apply elem_of_fold_add_prediction in Hc as [Hc|[Hc Hs]].
    + apply searchByPinyin_not_prediction in Hc. congruence.
    + rewrite Hcfg in Hs. split; [|done]. unfold predicted in Hc. rewrite Hpe in Hc.
      destruct (prediction_engine_ e) as [pe|]; [|by apply elem_of_nil in Hc].
      destruct (PredictionEngine.isAvailable pe) eqn:Ha; [|by apply elem_of_nil in Hc].
      by exists pe.
  - by right.
  - done.
  - split; [done|]. split; [by left|]. exists []. split; [by rewrite app_nil_r|].
    intros l Hl. by apply elem_of_nil in Hl.
Qed.

End WithCollaborators.
End EngineExtra.

(** *** On the seeded engine, after the keys n and i *)

Module EngineExamples.
Import Str Engine EngineFacts EngineOps SortFacts Instances.

Section Plain.
#[local] Existing Instance stable_sort.
#[local] Existing Instance dummy_llama.

(** The seeded engine after "ni": one candidate, 你好. *)
Definition composing : t := (processInputs [key "n"; key "i"] Scenarios.seeded).1.

Lemma X24_rejected_event_changes_nothing_witness :
  (processInput (key "h") composing).2 = false
  /\ (processInput (key "h") composing).1 = composing.
Proof.
  assert ((processInput (key "h") composing).2 = false) as Hr by (vm_compute; reflexivity).
  split; [exact Hr|].
  exact (EngineExtra.X24_rejected_event_changes_nothing (key "h") composing Hr).
Defined.

Lemma X26_selectCandidate_commits_witness :
  let c := mkCandidate "你好" "ni hao" (440 # 10) 100 false in
  candidates_ composing !! Z.to_nat 0 = Some c
  /\ (selectCandidate 0 composing).2 = true
  /\ notifications (selectCandidate 0 composing).1
     = notifications composing ++ [TextCommitted "你好"]
       ++ EngineExtra.clear_notifications composing.
Proof.
  intros c.
  assert (candidates_ composing !! Z.to_nat 0 = Some c) as Hc by (vm_compute; reflexivity).
  assert (Z.of_nat (length (candidates_ composing)) <= Std.INT_MAX) as Hsize
    by (vm_compute; discriminate).
  split; [exact Hc|].
  pose proof (EngineExtra.X26_selectCandidate_commits 0 composing c (Z.le_refl 0) Hsize Hc)
    as Hx.
  cbv zeta in Hx. destruct Hx as (Hr & _ & _ & _ & _ & Hn & _).
  split; [exact Hr|]. exact Hn.
Defined.

Lemma X28_candidate_count_bound_witness :
  0 <= max_candidates (config_ Scenarios.seeded) <= Std.INT_MAX
  /\ (candidates_ composing = candidates_ Scenarios.seeded
      \/ Z.of_nat (length (candidates_ composing))
         <= max_candidates (config_ Scenarios.seeded)).
Proof.
  assert (0 <= max_candidates (config_ Scenarios.seeded) <= Std.INT_MAX) as Hmax
    by (vm_compute; split; discriminate).
  split; [exact Hmax|].
  exact (proj1 (EngineExtra.X28_candidate_count_bound Scenarios.seeded
                  [key "n"; key "i"] Hmax)).
Defined.

End Plain.
End EngineExamples.
